(** * Occupancy reconstruction of [check_collision.py]

    A shallow embedding of [read_occupancy_csv]
    (src/models/Vehicle/collision detection/check_collision.py, lines 62-137)
    and the properties of the two occupancy sequences it builds.

    The function reads a comma separated file two rows at a time.  The first
    row of a pair carries the start time and the x coordinates, the second the
    end time and the y coordinates.  Every pair is validated against the
    scenario step size and then classified against a running grid time
    [scenario_time_step]; the classification decides what is appended to the
    cumulative and to the coinciding occupancy list.

    Python floats are binary64 numbers.  The embedding is written over an
    interface [Num] of the arithmetic the function uses, instantiated with
    Rocq's primitive binary64 floats, the arithmetic the program runs on.
    Properties of the control flow are proved for every instance whose
    comparisons obey the laws of [NumLaws], as those of binary64 do;
    properties of the grid indices are proved or evaluated on binary64.

    What the embedding takes as given: the file is the list of its rows, each
    field already read by [float()] (a number, or no number); the step size
    is passed in (lines 72-78, the path handling and the scenario loader, are
    left out).  Of the geometry library, [Polygon(vertices)] raises for
    fewer than three vertices and for a coordinate that is not finite;
    [ShapeGroup], [Occupancy] and [SetBasedPrediction] store their arguments
    and do not fail.  [ShapeGroup] keeps the very list object it is given, so
    the store of list objects is part of the state. *)

From Stdlib Require Import ZArith Lia Bool List Sorted.
From Stdlib Require Import Floats.
From stdpp Require Import base list.
Import ListNotations.

Local Open Scope Z_scope.

(** ** Exceptions *)

(** The exceptions [read_occupancy_csv] can leave with.  The two assertions and
    the explicit [raise] are the function's own; the others come from the
    built-ins it calls. *)
Inductive exn : Type :=
| AssertionError_step_size   (* line 99: 'Step size of solution must currently be smaller or equal to global step size.' *)
| AssertionError_interval    (* line 101: 'invalid time interval' *)
| Exception_chronological    (* line 126: 'Unexpected behaviour: Time intervals appear not to be in chronological order.' *)
| ZeroDivisionError          (* scenario_time_step/step_size with step_size == 0 *)
| OverflowError              (* int() of an infinity *)
| ValueError                 (* float() or np.array() of a field that is no number, ragged coordinates, int() of a nan, Polygon() of fewer than three vertices *)
| IndexError                 (* row[0] of an empty row *)
| GEOSException.             (* line 103: Polygon() of a coordinate that is not finite *)

(** A computation that returns or raises. *)
Definition M (A : Type) : Type := exn + A.

Definition ret {A} (a : A) : M A := inr a.
Definition raise {A} (e : exn) : M A := inl e.
Definition bind {A B} (m : M A) (k : A -> M B) : M B :=
  match m with
  | inl e => inl e
  | inr a => k a
  end.

Notation "x <- m ;; k" := (bind m (fun x => k))
  (at level 100, m at next level, right associativity).

(** [assert c, e] *)
Definition assert (c : bool) (e : exn) : M unit :=
  if c then ret tt else raise e.

Definition raises {A} (m : M A) : Prop := exists e, m = inl e.

(** ** The arithmetic interface *)

Class Num (T : Type) : Type := {
  of_int : Z -> T;              (* a Python int where a float is expected *)
  num_add : T -> T -> T;        (* x + y *)
  num_sub : T -> T -> T;        (* x - y *)
  num_div : T -> T -> M T;      (* x / y, ZeroDivisionError when y == 0 *)
  around5 : T -> T;             (* np.around(x, 5) *)
  int : T -> M Z;               (* int(x): truncation toward zero *)
  num_lt : T -> T -> bool;      (* x < y *)
  num_le : T -> T -> bool;      (* x <= y *)
  num_eq : T -> T -> bool;      (* x == y *)
  is_finite : T -> bool;        (* neither an infinity nor a nan *)
}.

(** [x >= y] is [y <= x], also on a nan (both are false). *)
Definition num_ge {T} `{Num T} (x y : T) : bool := num_le y x.

(** The laws the proofs use: of the comparisons, and which exceptions the
    division and [int] can raise.  They hold for binary64 floats (a nan
    compares false with everything). *)
Class NumLaws (T : Type) `{Num T} : Prop := {
  lt_not_ge : forall x y : T, num_lt x y = true -> num_le y x = false;
  lt_not_eq : forall x y : T, num_lt x y = true -> num_eq y x = false;
  lt_asym : forall x y : T, num_lt x y = true -> num_lt y x = false;
  lt_le : forall x y : T, num_lt x y = true -> num_le x y = true;
  eq_le : forall x y : T, num_eq x y = true -> num_le x y = true;
  eq_ge : forall x y : T, num_eq x y = true -> num_le y x = true;
  eq_not_lt : forall x y : T, num_eq x y = true -> num_lt x y = false;
  lt_not_both_eq : forall x y z : T,
    num_lt x y = true -> num_eq x z = true -> num_eq y z = false;
  zero_eq_zero : num_eq (of_int 0 : T) (of_int 0) = true;
  div_exn : forall (x y : T) e, num_div x y = inl e -> e = ZeroDivisionError;
  int_exn : forall (x : T) e, int x = inl e -> e = OverflowError \/ e = ValueError;
}.

(** ** Binary64 instance *)

Module Binary64.
Local Open Scope float_scope.

(** Conversion of a small Python int. *)
Definition float_of_int (z : Z) : float :=
  match z with
  | Z0 => 0
  | Zpos _ => of_uint63 (Uint63.of_Z z)
  | Zneg p => - of_uint63 (Uint63.of_Z (Zpos p))
  end.

(** Python raises on a float division by zero (either sign). *)
Definition float_div (x y : float) : M float :=
  if y =? 0 then raise ZeroDivisionError else ret (x / y).

(** C's [rint] in the default rounding mode: the nearest integer, a tie going
    to the even one, the sign of the argument kept on a zero result. *)
Definition rint (x : float) : float :=
  let two52 := 0x1p52 in
  if abs x <? two52 then
    let r := if x <? 0 then (x - two52) + two52 else (x + two52) - two52 in
    if r =? 0 then (if get_sign x then -0 else 0) else r
  else x.

(** [np.around(x, 5)] on a float64: multiply by 10**5, [rint], divide. *)
Definition float_around5 (x : float) : float := rint (x * 100000) / 100000.

(** [int(x)]: the integer part of [m * 2^e]. *)
Definition float_int (x : float) : M Z :=
  match Prim2SF x with
  | S754_zero _ => ret 0%Z
  | S754_infinity _ => raise OverflowError
  | S754_nan => raise ValueError
  | S754_finite s m e =>
      let a := if (0 <=? e)%Z then Z.shiftl (Zpos m) e
               else Z.shiftr (Zpos m) (- e) in
      ret (if s then (- a)%Z else a)
  end.

(** A zero or a finite number. *)
Definition float_is_finite (x : float) : bool :=
  match Prim2SF x with
  | S754_zero _ | S754_finite _ _ _ => true
  | S754_infinity _ | S754_nan => false
  end.

#[global] Instance num : Num float := {|
  of_int := float_of_int;
  num_add := PrimFloat.add;
  num_sub := PrimFloat.sub;
  num_div := float_div;
  around5 := float_around5;
  int := float_int;
  num_lt := PrimFloat.ltb;
  num_le := PrimFloat.leb;
  num_eq := PrimFloat.eqb;
  is_finite := float_is_finite;
|}.
End Binary64.

(** ** Data *)

(** A list object of the Python heap is named by its position in the store. *)
Abbreviation loc := nat (only parsing).

Section Reconstructor.
Context {T : Type} `{Num T}.

(** A field of a row as [float()] reads it: [None] when the text is no
    number. *)
Definition cell : Type := option T.

(** A row as [csv.reader] yields it, a list of fields. *)
Definition row : Type := list cell.

(** The two shapes the function builds.  A polygon is the one built from
    its vertices; [ShapeGroup(shape_list)] keeps the list object it is given,
    so a later [shape_list.append] shows through the group. *)
Inductive Shape : Type :=
| Polygon (vertices : list (T * T))
| ShapeGroup (shapes : loc).

Record Occupancy : Type := mkOccupancy {
  time_step : Z;
  shape : Shape;
}.

Record SetBasedPrediction : Type := mkSetBasedPrediction {
  initial_time_step : Z;
  occupancy_set : list Occupancy;
}.

(** The local variables of [read_occupancy_csv], with the store of list
    objects, [heap]. *)
Record locals : Type := mkLocals {
  occupancies_cumulative : list Occupancy;
  occupancies_coinciding : list Occupancy;
  shape_list : loc;
  scenario_time_step : T;
  flag : Z;
  time_buf : T * T;
  points_buffer : list cell;
  heap : list (list Shape);
}.

(** What the function returns: the two predictions, and the store their
    shape groups point into. *)
Record result : Type := mkResult {
  occupancy_coinciding_prediction : SetBasedPrediction;
  occupancy_cumulative_prediction : SetBasedPrediction;
  objects : list (list Shape);
}.

(** The shapes of a group, read from the store. *)
Definition group_shapes (h : list (list Shape)) (s : Shape) : list Shape :=
  match s with
  | Polygon _ => [s]
  | ShapeGroup l => default [] (h !! l)
  end.

Definition time_indices (p : SetBasedPrediction) : list Z :=
  map time_step (occupancy_set p).

(** ** Assignments *)

Definition set_occupancies_cumulative (v : list Occupancy) (st : locals) : locals :=
  mkLocals v (occupancies_coinciding st) (shape_list st)
    (scenario_time_step st) (flag st) (time_buf st) (points_buffer st) (heap st).

Definition set_occupancies_coinciding (v : list Occupancy) (st : locals) : locals :=
  mkLocals (occupancies_cumulative st) v (shape_list st)
    (scenario_time_step st) (flag st) (time_buf st) (points_buffer st) (heap st).

Definition set_scenario_time_step (v : T) (st : locals) : locals :=
  mkLocals (occupancies_cumulative st) (occupancies_coinciding st) (shape_list st)
    v (flag st) (time_buf st) (points_buffer st) (heap st).

Definition set_flag (v : Z) (st : locals) : locals :=
  mkLocals (occupancies_cumulative st) (occupancies_coinciding st) (shape_list st)
    (scenario_time_step st) v (time_buf st) (points_buffer st) (heap st).

Definition set_time_buf (v : T * T) (st : locals) : locals :=
  mkLocals (occupancies_cumulative st) (occupancies_coinciding st) (shape_list st)
    (scenario_time_step st) (flag st) v (points_buffer st) (heap st).

Definition set_points_buffer (v : list cell) (st : locals) : locals :=
  mkLocals (occupancies_cumulative st) (occupancies_coinciding st) (shape_list st)
    (scenario_time_step st) (flag st) (time_buf st) v (heap st).

(** [shape_list.append(p)]: the list object grows in place. *)
Definition shape_list_append (p : Shape) (st : locals) : locals :=
  mkLocals (occupancies_cumulative st) (occupancies_coinciding st) (shape_list st)
    (scenario_time_step st) (flag st) (time_buf st) (points_buffer st)
    (alter (fun l => l ++ [p]) (shape_list st) (heap st)).

(** [shape_list = []]: the name is bound to a new, empty list object. *)
Definition shape_list_new (st : locals) : locals :=
  mkLocals (occupancies_cumulative st) (occupancies_coinciding st) (length (heap st))
    (scenario_time_step st) (flag st) (time_buf st) (points_buffer st)
    (heap st ++ [[]]).

(** ** The body of the loop *)

(** [float(row[0])] *)
Definition float_row0 (r : row) : M T :=
  match r with
  | [] => raise IndexError
  | None :: _ => raise ValueError
  | Some t :: _ => ret t
  end.

(** [row[1:]] *)
Definition row_tail (r : row) : list cell := tail r.

(** All fields of a list as numbers, or [None]. *)
Fixpoint floats (cs : list cell) : option (list T) :=
  match cs with
  | [] => Some []
  | None :: _ => None
  | Some x :: cs =>
      match floats cs with
      | Some xs => Some (x :: xs)
      | None => None
      end
  end.

(** [np.array([xs, ys], dtype=float).transpose()]: the rows of the result
    pair the i-th field of [xs] with the i-th field of [ys]; lists of
    different lengths and fields that are no numbers are refused. *)
Definition array_transpose (xs ys : list cell) : M (list (T * T)) :=
  if Nat.eqb (length xs) (length ys) then
    match floats xs, floats ys with
    | Some a, Some b => ret (zip a b)
    | _, _ => raise ValueError
    end
  else raise ValueError.

(** [Polygon(vertices)], line 103: the constructor of the geometry library
    raises a ValueError for fewer than three vertices and a GEOSException for
    a coordinate that is an infinity or a nan. *)
Definition new_Polygon (vertices : list (T * T)) : M Shape :=
  if (length vertices <? 3)%nat then raise ValueError
  else if forallb (fun v => is_finite (fst v) && is_finite (snd v)) vertices
  then ret (Polygon vertices)
  else raise GEOSException.

(** [int(scenario_time_step/step_size)] *)
Definition grid_index (step_size : T) (st : locals) : M Z :=
  q <- num_div (scenario_time_step st) step_size ;;
  int q.

(** [occupancies_cumulative.append(Occupancy(int(scenario_time_step/step_size),
    ShapeGroup(shape_list)))] *)
Definition emit_cumulative (step_size : T) (st : locals) : M locals :=
  i <- grid_index step_size st ;;
  ret (set_occupancies_cumulative
         (occupancies_cumulative st ++ [mkOccupancy i (ShapeGroup (shape_list st))]) st).

(** Lines 92-93, the first row of a pair. *)
Definition first_row (r : row) (st : locals) : M locals :=
  t0 <- float_row0 r ;;
  ret (set_points_buffer (row_tail r) (set_time_buf (t0, of_int (-1)) st)).

(** Lines 105-107, the initial occupancy. *)
Definition initial_occupancy (step_size : T) (st : locals) : M locals :=
  if num_eq (scenario_time_step st) (of_int 0) && num_eq (fst (time_buf st)) (of_int 0)
  then emit_cumulative step_size st
  else ret st.

(** Lines 109-126, the classification against the grid time. *)
Definition classify (step_size : T) (current_polygon : Shape) (st : locals) : M locals :=
  if num_lt (snd (time_buf st)) (scenario_time_step st) then
    ret (shape_list_append current_polygon st)
  else if num_eq (snd (time_buf st)) (scenario_time_step st) then
    st <- emit_cumulative step_size (shape_list_append current_polygon st) ;;
    ret (shape_list_new st)
  else if num_le (fst (time_buf st)) (scenario_time_step st) then
    st <- emit_cumulative step_size (shape_list_append current_polygon st) ;;
    ret (shape_list_append current_polygon (shape_list_new st))
  else raise Exception_chronological.

(** Lines 128-130, the coinciding occupancy and the advance of the grid
    time. *)
Definition coincide (step_size : T) (current_polygon : Shape) (st : locals) : M locals :=
  if num_ge (snd (time_buf st)) (scenario_time_step st)
     && num_le (fst (time_buf st)) (scenario_time_step st)
  then
    i <- grid_index step_size st ;;
    ret (set_scenario_time_step (num_add (scenario_time_step st) step_size)
           (set_occupancies_coinciding
              (occupancies_coinciding st ++ [mkOccupancy i current_polygon]) st))
  else ret st.

(** Lines 95-103: the end time, the vertices, the two assertions and the
    polygon of the interval. *)
Definition read_interval (step_size : T) (r : row) (st : locals) : M (locals * Shape) :=
  t1 <- float_row0 r ;;
  let st := set_time_buf (fst (time_buf st), t1) st in
  vertices <- array_transpose (points_buffer st) (row_tail r) ;;
  let step_size_prediction := around5 (num_sub (snd (time_buf st)) (fst (time_buf st))) in
  _ <- assert (num_ge step_size step_size_prediction) AssertionError_step_size ;;
  _ <- assert (num_ge step_size_prediction (of_int 0)) AssertionError_interval ;;
  current_polygon <- new_Polygon vertices ;;
  ret (st, current_polygon).

(** Lines 95-130, the second row of a pair. *)
Definition second_row (step_size : T) (r : row) (st : locals) : M locals :=
  iv <- read_interval step_size r st ;;
  let current_polygon := snd iv in
  st <- initial_occupancy step_size (fst iv) ;;
  st <- classify step_size current_polygon st ;;
  coincide step_size current_polygon st.

(** Lines 89-132, one turn of the loop over the rows. *)
Definition loop_body (step_size : T) (r : row) (st : locals) : M locals :=
  st <- (if flag st =? 1 then first_row r st
         else if flag st =? -1 then second_row step_size r st
         else ret st) ;;
  ret (set_flag (flag st * -1) st).

Fixpoint for_rows (step_size : T) (csv_reader : list row) (st : locals) : M locals :=
  match csv_reader with
  | [] => ret st
  | r :: csv_reader =>
      st <- loop_body step_size r st ;;
      for_rows step_size csv_reader st
  end.

(** Lines 80-88.  [time_buf] and [points_buffer] are unbound in Python until
    the first row binds them; no row reads them before. *)
Definition initial_locals : locals :=
  mkLocals [] [] 0%nat (of_int 0) 1 (of_int (-1), of_int (-1)) [] [[]].

(** Lines 134-137. *)
Definition predictions (st : locals) : result :=
  mkResult (mkSetBasedPrediction 0 (occupancies_coinciding st))
           (mkSetBasedPrediction 0 (occupancies_cumulative st))
           (heap st).

(** [read_occupancy_csv] on the rows of the file and a given step size. *)
Definition read_occupancy_csv (csv_reader : list row) (step_size : T) : M result :=
  st <- for_rows step_size csv_reader initial_locals ;;
  ret (predictions st).

End Reconstructor.

Arguments cell : clear implicits.
Arguments row : clear implicits.
Arguments Shape : clear implicits.
Arguments Occupancy : clear implicits.
Arguments SetBasedPrediction : clear implicits.
Arguments locals : clear implicits.
Arguments result : clear implicits.

(** ** Notions the properties are stated with *)

Section Notions.
Context {T : Type} `{Num T}.

(** The three classes of an interval that lines 109-123 accept: it ends before
    the grid time, it ends at the grid time, or it starts at or before the
    grid time and ends after it. *)
Variant class : Type := Before | Reaches | Straddles.

Definition class_of (st : locals T) : option class :=
  if num_lt (snd (time_buf st)) (scenario_time_step st) then Some Before
  else if num_eq (snd (time_buf st)) (scenario_time_step st) then Some Reaches
  else if num_le (fst (time_buf st)) (scenario_time_step st) then Some Straddles
  else None.

(** The rows [r1], [r2] hold the interval [t0, t1] and its vertices. *)
Definition interval (r1 r2 : row T) (t0 t1 : T) (vertices : list (T * T)) : Prop :=
  exists xs ys, r1 = Some t0 :: xs /\ r2 = Some t1 :: ys /\
    array_transpose xs ys = inr vertices.

(** The two assertions of lines 99 and 101. *)
Definition valid (step_size t0 t1 : T) : bool :=
  num_ge step_size (around5 (num_sub t1 t0))
  && num_ge (around5 (num_sub t1 t0)) (of_int 0).

(** The locals when lines 105-130 run on the interval [t0, t1]: those before
    the pair, with [time_buf] and [points_buffer] bound by its two rows. *)
Definition at_interval (t0 t1 : T) (xs : list (cell T)) (st : locals T) : locals T :=
  set_time_buf (t0, t1)
    (set_flag (-1) (set_points_buffer xs (set_time_buf (t0, of_int (-1)) st))).

(** Every coinciding time index is a cumulative time index. *)
Definition covered (st : locals T) : Prop :=
  forall i, In i (map time_step (occupancies_coinciding st)) ->
    In i (map time_step (occupancies_cumulative st)).

(** The cumulative sequence of a result with every group read from the
    store: the time index and the shapes of the group. *)
Definition cumulative_groups (res : result T) : list (Z * list (Shape T)) :=
  map (fun o => (time_step o, group_shapes (objects res) (shape o)))
    (occupancy_set (occupancy_cumulative_prediction res)).

(** The time indices of the two sequences of a run. *)
Definition coinciding_indices (csv : list (row T)) (step_size : T) : M (list Z) :=
  res <- read_occupancy_csv csv step_size ;;
  ret (time_indices (occupancy_coinciding_prediction res)).

Definition cumulative_indices (csv : list (row T)) (step_size : T) : M (list Z) :=
  res <- read_occupancy_csv csv step_size ;;
  ret (time_indices (occupancy_cumulative_prediction res)).

(** The grid time after [k] advances: [0 + step_size + ... + step_size], in
    the arithmetic of the program. *)
Fixpoint grid_time (step_size : T) (k : nat) : T :=
  match k with
  | O => of_int 0
  | S k => num_add (grid_time step_size k) step_size
  end.

(** The time index the program computes at that grid time,
    [int(scenario_time_step/step_size)]. *)
Definition index_at (step_size : T) (k : nat) : M Z :=
  q <- num_div (grid_time step_size k) step_size ;;
  int q.

(** The two sequences follow the grid: the grid time is the one after as many
    advances as there are coinciding occupancies; the k-th coinciding
    occupancy carries the index computed at the k-th grid time; every
    cumulative occupancy carries the index computed at the grid time of its
    emission, and these grid times do not go back. *)
Record follows_grid (step_size : T) (st : locals T) : Prop := {
  grid_now :
    scenario_time_step st = grid_time step_size (length (occupancies_coinciding st));
  grid_coinciding :
    forall k o, occupancies_coinciding st !! k = Some o ->
      index_at step_size k = inr (time_step o);
  grid_cumulative :
    exists ks : list nat,
      Forall2 (fun o k => index_at step_size k = inr (time_step o))
        (occupancies_cumulative st) ks /\
      StronglySorted Nat.le ks /\
      Forall (fun k => (k <= length (occupancies_coinciding st))%nat) ks;
}.

(** The two rows that encode the interval [t0, t1] over a polygon given by
    its x and its y coordinates. *)
Definition interval_rows (t0 t1 : T) (xs ys : list T) : list (row T) :=
  [Some t0 :: map Some xs; Some t1 :: map Some ys].

End Notions.

(** The exceptions of the division and of [int]. *)
Definition arithmetic (e : exn) : Prop :=
  e = ZeroDivisionError \/ e = OverflowError \/ e = ValueError.

(** ** The store of list objects *)

Section StoreNotions.
Context {T : Type} `{Num T}.

Definition is_polygon (s : Shape T) : bool :=
  match s with
  | Polygon _ => true
  | ShapeGroup _ => false
  end.

(** The occupancy holds a group whose list object is in the store [h] and
    holds at least one shape, all of them polygons. *)
Definition group_ok (h : list (list (Shape T))) (o : Occupancy T) : Prop :=
  exists l ps, shape o = ShapeGroup l /\ h !! l = Some ps /\ ps <> [] /\
    forallb is_polygon ps = true.

(** The same, or the group is over the list object [cur], whatever it
    holds. *)
Definition group_pending (h : list (list (Shape T))) (cur : loc) (o : Occupancy T) : Prop :=
  group_ok h o \/ shape o = ShapeGroup cur.

(** What the loop keeps true of the store between two intervals. *)
Record store_inv (st : locals T) : Prop := {
  inv_buffer : (shape_list st < length (heap st))%nat;
  inv_polygons : Forall (fun ps => forallb is_polygon ps = true) (heap st);
  inv_coinciding_shapes :
    Forall (fun o => is_polygon (shape o) = true) (occupancies_coinciding st);
  inv_groups : Forall (group_ok (heap st)) (occupancies_cumulative st);
}.

(** What holds between lines 105-107 and the classification: the group of the
    initial occupancy may still be empty. *)
Record store_pending (st : locals T) : Prop := {
  pen_buffer : (shape_list st < length (heap st))%nat;
  pen_polygons : Forall (fun ps => forallb is_polygon ps = true) (heap st);
  pen_coinciding_shapes :
    Forall (fun o => is_polygon (shape o) = true) (occupancies_coinciding st);
  pen_groups :
    Forall (group_pending (heap st) (shape_list st)) (occupancies_cumulative st);
}.

(** From [st] to [st'] no list object loses or changes a shape, only the list
    object of the buffer gains shapes, and [shape_list] names the same list
    object or one that did not exist in [st]. *)
Definition grows (st st' : locals T) : Prop :=
  (forall l ps, heap st !! l = Some ps ->
     exists more, heap st' !! l = Some (ps ++ more) /\
       (l <> shape_list st -> more = [])) /\
  (shape_list st' = shape_list st \/ (length (heap st) <= shape_list st')%nat) /\
  (shape_list st' < length (heap st'))%nat.

(** From [st] to [st'] the two occupancy lists are only appended to. *)
Definition appended (st st' : locals T) : Prop :=
  occupancies_cumulative st `prefix_of` occupancies_cumulative st' /\
  occupancies_coinciding st `prefix_of` occupancies_coinciding st'.

(** 1 when the first row of a pair has been read and the second has not. *)
Definition pending_row (st : locals T) : nat := if flag st =? -1 then 1 else 0.

End StoreNotions.

(** ** Sources *)

Module Sources.
Local Set Warnings "-inexact-float".

(** Two triangles, by their x and y coordinates. *)
Definition P1_x : list float := [0; 1; 1]%float.
Definition P1_y : list float := [0; 0; 1]%float.
Definition P2_x : list float := [1; 2; 2]%float.
Definition P2_y : list float := [0; 0; 1]%float.

Definition P1 : Shape float := Polygon (zip P1_x P1_y).
Definition P2 : Shape float := Polygon (zip P2_x P2_y).

(** Scenario A of the specification: [0,1] over P1 and [1,2] over P2. *)
Definition scenario_A : list (row float) :=
  (interval_rows 0 1 P1_x P1_y ++ interval_rows 1 2 P2_x P2_y)%float.

(** Seven intervals of length 0.1, for a grid of step 0.1. *)
Definition tenths : list (row float) :=
  (interval_rows 0 0.1 P1_x P1_y ++ interval_rows 0.1 0.2 P1_x P1_y ++
   interval_rows 0.2 0.3 P1_x P1_y ++ interval_rows 0.3 0.4 P1_x P1_y ++
   interval_rows 0.4 0.5 P1_x P1_y ++ interval_rows 0.5 0.6 P1_x P1_y ++
   interval_rows 0.6 0.7 P1_x P1_y)%float.

(** The first six of them, and then an interval that starts and ends at 0.6,
    over P2. *)
Definition six_tenths : list (row float) :=
  (interval_rows 0 0.1 P1_x P1_y ++ interval_rows 0.1 0.2 P1_x P1_y ++
   interval_rows 0.2 0.3 P1_x P1_y ++ interval_rows 0.3 0.4 P1_x P1_y ++
   interval_rows 0.4 0.5 P1_x P1_y ++ interval_rows 0.5 0.6 P1_x P1_y)%float.

Definition six_tenths_then_point : list (row float) :=
  six_tenths ++ interval_rows 0.6%float 0.6%float P2_x P2_y.

(** An interval that ends at 0 and starts 2^-20 (9.5367431640625e-07)
    later. *)
Definition backwards : list (row float) :=
  interval_rows 0x1p-20%float 0%float P1_x P1_y.

(** An interval before time 0. *)
Definition early : list (row float) :=
  interval_rows (-1)%float (-1)%float P1_x P1_y.

(** The interval [0,1] over P2 after each of the two. *)
Definition backwards_then : list (row float) :=
  backwards ++ interval_rows 0%float 1%float P2_x P2_y.

Definition early_then : list (row float) :=
  early ++ interval_rows 0%float 1%float P2_x P2_y.

(** Scenario A with a fifth row. *)
Definition five_rows : list (row float) :=
  scenario_A ++ [Some 3%float :: map Some P1_x].

End Sources.

(** Further sources: a row whose time field is no number after scenario A,
    coordinates of different number, the interval [0,1] followed by an
    interval inside it, and an interval that starts and ends at 0. *)
Module Samples.
Import Sources.
Local Set Warnings "-inexact-float".

Definition unreadable_row : row float := [None; Some 1%float].

Definition ragged : list (row float) :=
  [[Some 0; Some 0; Some 1]; [Some 1; Some 0]]%float.

Definition unit_interval : list (row float) := interval_rows 0%float 1%float P1_x P1_y.

Definition quarter : list (row float) := interval_rows 0.25%float 0.5%float P2_x P2_y.

Definition point : list (row float) := interval_rows 0%float 0%float P1_x P1_y.

End Samples.

(** * Properties *)

(** ** Reading a bind *)

Lemma bind_inr {A B} (m : M A) (k : A -> M B) (b : B) :
bind m k = inr b <-> exists a, m = inr a /\ k a = inr b.
Proof.
destruct m as [e|a]; cbn; split.
- discriminate.
- intros (a & Ha & _). discriminate.
- eauto.
- intros (a' & Ha & Hk). congruence.
Qed.

Lemma bind_inl {A B} (m : M A) (k : A -> M B) (e : exn) :
bind m k = inl e <-> m = inl e \/ exists a, m = inr a /\ k a = inl e.
Proof.
destruct m as [e'|a]; cbn; split.
- intros He. left. congruence.
- intros [He|(a & Ha & _)]; congruence.
- intros Hk. right. exists a. split; [reflexivity|exact Hk].
- intros [He|(a' & Ha & Hk)]; congruence.
Qed.

Lemma bind_raises {A B} (m : M A) (k : A -> M B) :
raises m -> raises (bind m k).
Proof. intros [e ->]. exists e. reflexivity. Qed.

Lemma assert_inr (c : bool) (e : exn) (u : unit) :
assert c e = inr u <-> c = true.
Proof. unfold assert, ret, raise. destruct c, u; split; congruence. Qed.

Ltac inv_bind H :=
  repeat match type of H with
  | bind _ _ = inr _ =>
      let a := fresh "a" in
      let Ha := fresh "Ha" in
      apply bind_inr in H; destruct H as (a & Ha & H)
  end.


(** ** The comparisons of binary64 obey the laws *)

Module Binary64Laws.

Lemma SFcompare_antisym (x y : spec_float) :
  SFcompare y x = option_map CompOpp (SFcompare x y).
Proof.
  destruct x as [sx|sx| |sx mx ex], y as [sy|sy| |sy my ey]; cbn;
    try reflexivity;
    try (destruct sx; reflexivity);
    try (destruct sy; reflexivity);
    try (destruct sx, sy; reflexivity).
  destruct sx, sy; try reflexivity;
    rewrite (Z.compare_antisym ex ey);
    destruct (ex ?= ey)%Z; cbn; try reflexivity;
    change (Pos.compare_cont Eq mx my) with (Pos.compare mx my);
    change (Pos.compare_cont Eq my mx) with (Pos.compare my mx);
    rewrite (Pos.compare_antisym mx my);
    rewrite ?CompOpp_involutive; reflexivity.
Qed.

(** A float that compares equal to a second one compares with a third as
    the second does. *)
Lemma SFcompare_eq_compat (x y z : spec_float) :
  SFcompare x y = Some Eq -> SFcompare x z = SFcompare y z.
Proof.
  destruct x as [sx|sx| |sx mx ex], y as [sy|sy| |sy my ey]; cbn;
    try discriminate;
    try (destruct sx; discriminate);
    try (destruct sy; discriminate).
  - reflexivity.
  - destruct sx, sy; try discriminate; reflexivity.
  - destruct sx, sy; try discriminate;
      destruct (ex ?= ey)%Z eqn:He; try discriminate;
      apply Z.compare_eq in He; subst ey;
      change (Pos.compare_cont Eq mx my) with (Pos.compare mx my);
      destruct (mx ?= my)%positive eqn:Hm; try discriminate;
      apply Pos.compare_eq in Hm; subst my; reflexivity.
Qed.

Lemma ltb_compare (x y : float) :
  num_lt x y = true <-> SFcompare (Prim2SF x) (Prim2SF y) = Some Lt.
Proof.
  cbn. rewrite FloatAxioms.ltb_spec. unfold SFltb.
  destruct (SFcompare _ _) as [[]|]; split; intros; congruence.
Qed.

Lemma eqb_compare (x y : float) :
  num_eq x y = true <-> SFcompare (Prim2SF x) (Prim2SF y) = Some Eq.
Proof.
  cbn. rewrite FloatAxioms.eqb_spec. unfold SFeqb.
  destruct (SFcompare _ _) as [[]|]; split; intros; congruence.
Qed.

Lemma leb_compare (x y : float) :
  num_le x y = true <->
  SFcompare (Prim2SF x) (Prim2SF y) = Some Lt \/
  SFcompare (Prim2SF x) (Prim2SF y) = Some Eq.
Proof.
  cbn. rewrite FloatAxioms.leb_spec. unfold SFleb.
  destruct (SFcompare _ _) as [[]|]; split; intros; intuition congruence.
Qed.

Tactic Notation "flip" constr(x) constr(y) :=
  rewrite (SFcompare_antisym (Prim2SF x) (Prim2SF y)).
Tactic Notation "flip" constr(x) constr(y) "in" hyp(H) :=
  rewrite (SFcompare_antisym (Prim2SF x) (Prim2SF y)) in H.

#[global] Instance laws : NumLaws float.
Proof.
  split; [intros x y..| |intros x y e|intros x e].
  - rewrite ltb_compare. intros Hc.
    apply not_true_is_false. rewrite leb_compare. flip x y.
    rewrite Hc. cbn. intuition congruence.
  - rewrite ltb_compare. intros Hc.
    apply not_true_is_false. rewrite eqb_compare. flip x y.
    rewrite Hc. cbn. congruence.
  - rewrite ltb_compare. intros Hc.
    apply not_true_is_false. rewrite ltb_compare. flip x y.
    rewrite Hc. cbn. congruence.
  - rewrite ltb_compare, leb_compare. auto.
  - rewrite eqb_compare, leb_compare. auto.
  - rewrite eqb_compare, leb_compare. intros Hc. flip x y.
    rewrite Hc. cbn. auto.
  - rewrite eqb_compare. intros Hc.
    apply not_true_is_false. rewrite ltb_compare. congruence.
  - intros z. rewrite ltb_compare, eqb_compare. intros Hlt Hx.
    apply not_true_is_false. rewrite eqb_compare. intros Hy.
    rewrite (SFcompare_eq_compat _ _ (Prim2SF y) Hx) in Hlt.
    flip y z in Hlt. rewrite Hy in Hlt. discriminate.
  - reflexivity.
  - cbn. unfold Binary64.float_div, raise, ret.
    destruct (PrimFloat.eqb y 0); congruence.
  - cbn. unfold Binary64.float_int, raise, ret.
    destruct (Prim2SF x); intros He; try discriminate;
      injection He as <-; auto.
Qed.
End Binary64Laws.

(** ** Control flow, for every lawful arithmetic *)

Section Flow.
Context {T : Type} `{NumLaws T}.

Implicit Types (st : locals T) (r : row T) (step_size : T).

Lemma for_rows_app step_size (a b : list (row T)) st :
for_rows step_size (a ++ b) st =
  (st' <- for_rows step_size a st ;; for_rows step_size b st').
Proof.
revert st. induction a as [|r a IH]; intros st; cbn.
- reflexivity.
- destruct (loop_body step_size r st) as [e|st1]; cbn; auto.
Qed.

(** *** What each phase does when it returns *)

Lemma emit_cumulative_inr step_size st st' :
emit_cumulative step_size st = inr st' ->
exists i, grid_index step_size st = inr i /\
  st' = set_occupancies_cumulative
          (occupancies_cumulative st ++ [mkOccupancy i (ShapeGroup (shape_list st))]) st.
Proof.
unfold emit_cumulative. intros Hb. inv_bind Hb. injection Hb as <-. eauto.
Qed.


Lemma initial_occupancy_inr step_size st st' :
initial_occupancy step_size st = inr st' ->
(num_eq (scenario_time_step st) (of_int 0) && num_eq (fst (time_buf st)) (of_int 0) = false
 /\ st' = st) \/
(num_eq (scenario_time_step st) (of_int 0) && num_eq (fst (time_buf st)) (of_int 0) = true
 /\ exists i, grid_index step_size st = inr i /\
    st' = set_occupancies_cumulative
            (occupancies_cumulative st ++ [mkOccupancy i (ShapeGroup (shape_list st))]) st).
Proof.
unfold initial_occupancy.
destruct (num_eq (scenario_time_step st) (of_int 0) && _) eqn:Hg; intros Hr.
- right. split; [reflexivity|]. apply emit_cumulative_inr, Hr.
- left. split; [reflexivity|]. injection Hr as <-. reflexivity.
Qed.

Lemma classify_inr step_size (p : Shape T) st st' :
classify step_size p st = inr st' ->
(class_of st = Some Before /\ st' = shape_list_append p st) \/
(exists i, grid_index step_size st = inr i /\
  let emitted :=
    set_occupancies_cumulative
      (occupancies_cumulative st ++ [mkOccupancy i (ShapeGroup (shape_list st))])
      (shape_list_append p st) in
  (class_of st = Some Reaches /\ st' = shape_list_new emitted) \/
  (class_of st = Some Straddles /\ st' = shape_list_append p (shape_list_new emitted))).
Proof.
unfold classify, class_of.
destruct (num_lt _ _); [|destruct (num_eq _ _); [|destruct (num_le _ _)]];
  intros Hr.
- left. injection Hr as <-. auto.
- right. inv_bind Hr. apply emit_cumulative_inr in Ha as (i & Hi & ->).
  injection Hr as <-. exists i. split; [exact Hi|]. left. auto.
- right. inv_bind Hr. apply emit_cumulative_inr in Ha as (i & Hi & ->).
  injection Hr as <-. exists i. split; [exact Hi|]. right. auto.
- discriminate.
Qed.

Lemma coincide_inr step_size (p : Shape T) st st' :
coincide step_size p st = inr st' ->
(num_ge (snd (time_buf st)) (scenario_time_step st)
   && num_le (fst (time_buf st)) (scenario_time_step st) = false /\ st' = st) \/
(num_ge (snd (time_buf st)) (scenario_time_step st)
   && num_le (fst (time_buf st)) (scenario_time_step st) = true /\
 exists i, grid_index step_size st = inr i /\
   st' = set_scenario_time_step (num_add (scenario_time_step st) step_size)
           (set_occupancies_coinciding
              (occupancies_coinciding st ++ [mkOccupancy i p]) st)).
Proof.
unfold coincide.
destruct (num_ge _ _ && _) eqn:Hc; intros Hr.
- right. split; [reflexivity|]. inv_bind Hr. injection Hr as <-. eauto.
- left. split; [reflexivity|]. injection Hr as <-. reflexivity.
Qed.

(** The exceptions of the grid index are those of the division and of
    [int]. *)
Lemma grid_index_exn step_size st e :
grid_index step_size st = inl e ->
e = ZeroDivisionError \/ e = OverflowError \/ e = ValueError.
Proof.
unfold grid_index. intros Hb. apply bind_inl in Hb as [Hd|(q & _ & Hi)].
- left. eapply div_exn, Hd.
- right. eapply int_exn, Hi.
Qed.

Lemma emit_cumulative_exn step_size st e :
emit_cumulative step_size st = inl e -> arithmetic e.
Proof.
unfold emit_cumulative. intros Hb. apply bind_inl in Hb as [Hd|(q & _ & Hi)].
- eapply grid_index_exn, Hd.
- discriminate.
Qed.

Lemma initial_occupancy_exn step_size st e :
initial_occupancy step_size st = inl e -> arithmetic e.
Proof.
unfold initial_occupancy. destruct (_ && _).
- apply emit_cumulative_exn.
- discriminate.
Qed.

Lemma coincide_exn step_size (p : Shape T) st e :
coincide step_size p st = inl e -> arithmetic e.
Proof.
unfold coincide. destruct (_ && _); [|discriminate].
intros Hb. apply bind_inl in Hb as [Hd|(q & _ & Hi)].
- eapply grid_index_exn, Hd.
- discriminate.
Qed.

Lemma classify_exn step_size (p : Shape T) st e :
classify step_size p st = inl e ->
(e = Exception_chronological /\ class_of st = None) \/
(arithmetic e /\ class_of st <> None).
Proof.
unfold classify, class_of.
destruct (num_lt _ _); [|destruct (num_eq _ _); [|destruct (num_le _ _)]];
  intros Hr.
- discriminate.
- right. split; [|discriminate].
  apply bind_inl in Hr as [Hd|(q & _ & Hi)]; [|discriminate].
  eapply emit_cumulative_exn, Hd.
- right. split; [|discriminate].
  apply bind_inl in Hr as [Hd|(q & _ & Hi)]; [|discriminate].
  eapply emit_cumulative_exn, Hd.
- left. injection Hr as <-. auto.
Qed.

Lemma classify_none step_size (p : Shape T) st :
class_of st = None -> classify step_size p st = inl Exception_chronological.
Proof.
unfold classify, class_of.
destruct (num_lt _ _); [|destruct (num_eq _ _); [|destruct (num_le _ _)]];
  intros Hr; try discriminate. reflexivity.
Qed.


(** *** The flag *)

Lemma initial_occupancy_flag step_size st st' :
initial_occupancy step_size st = inr st' -> flag st' = flag st.
Proof.
intros [(_ & ->)|(_ & i & _ & ->)]%initial_occupancy_inr; reflexivity.
Qed.

Lemma classify_flag step_size (p : Shape T) st st' :
classify step_size p st = inr st' -> flag st' = flag st.
Proof.
intros [(_ & ->)|(i & _ & [(_ & ->)|(_ & ->)])]%classify_inr; reflexivity.
Qed.

Lemma coincide_flag step_size (p : Shape T) st st' :
coincide step_size p st = inr st' -> flag st' = flag st.
Proof.
intros [(_ & ->)|(_ & i & _ & ->)]%coincide_inr; reflexivity.
Qed.

(** The constructor returns the polygon of the vertices or raises one of its
    two exceptions. *)
Lemma new_Polygon_inr (vertices : list (T * T)) (p : Shape T) :
new_Polygon vertices = inr p -> p = Polygon vertices.
Proof.
unfold new_Polygon. destruct (_ <? _)%nat; [discriminate|].
destruct (forallb _ _); [|discriminate]. intros [= <-]. reflexivity.
Qed.

Lemma new_Polygon_inl (vertices : list (T * T)) (e : exn) :
new_Polygon vertices = inl e -> e = ValueError \/ e = GEOSException.
Proof.
unfold new_Polygon. destruct (_ <? _)%nat; [intros [= <-]; auto|].
destruct (forallb _ _); [discriminate|]. intros [= <-]. auto.
Qed.

Lemma read_interval_inr step_size r st st' (p : Shape T) :
read_interval step_size r st = inr (st', p) ->
exists t1 vertices,
  float_row0 r = inr t1 /\
  array_transpose (points_buffer st) (row_tail r) = inr vertices /\
  num_ge step_size (around5 (num_sub t1 (fst (time_buf st)))) = true /\
  num_ge (around5 (num_sub t1 (fst (time_buf st)))) (of_int 0) = true /\
  st' = set_time_buf (fst (time_buf st), t1) st /\
  p = Polygon vertices.
Proof.
unfold read_interval. intros Hb. inv_bind Hb. cbn in *.
apply assert_inr in Ha1, Ha2. apply new_Polygon_inr in Ha3.
injection Hb as <- <-. exists a, a0. auto 10.
Qed.

Lemma second_row_flag step_size r st st' :
second_row step_size r st = inr st' -> flag st' = flag st.
Proof.
unfold second_row. intros Hb. inv_bind Hb. destruct a as [st1 p].
apply read_interval_inr in Ha as (t1 & v & _ & _ & _ & _ & -> & _).
apply initial_occupancy_flag in Ha0. apply classify_flag in Ha1.
apply coincide_flag in Hb. cbn in *. congruence.
Qed.

Lemma first_row_flag r st st' :
first_row r st = inr st' -> flag st' = flag st.
Proof.
unfold first_row. intros Hb. inv_bind Hb. injection Hb as <-. reflexivity.
Qed.

Lemma loop_body_flag step_size r st st' :
loop_body step_size r st = inr st' -> flag st' = flag st * -1.
Proof.
unfold loop_body. intros Hb. inv_bind Hb. injection Hb as <-. cbn.
f_equal.
destruct (flag st =? 1); [eapply first_row_flag, Ha|].
destruct (flag st =? -1); [eapply second_row_flag, Ha|].
injection Ha as <-. reflexivity.
Qed.

Lemma for_rows_flag step_size (rows : list (row T)) st st' :
for_rows step_size rows st = inr st' ->
flag st' = if Nat.even (length rows) then flag st else - flag st.
Proof.
revert st. induction rows as [|r rows IH]; intros st Hb.
- injection Hb as <-. reflexivity.
- cbn [for_rows] in Hb. inv_bind Hb.
  apply loop_body_flag in Ha. apply IH in Hb.
  cbn [length]. rewrite Nat.even_succ, <- Nat.negb_even.
  destruct (Nat.even (length rows)); cbn; lia.
Qed.

(** After an even number of rows the next row is the first of a pair. *)
Lemma even_rows_flag step_size (rows : list (row T)) st :
Nat.even (length rows) = true ->
for_rows step_size rows initial_locals = inr st -> flag st = 1.
Proof.
intros He Hb. apply for_rows_flag in Hb. rewrite He in Hb. exact Hb.
Qed.

(** *** One interval *)

Lemma loop_body_first step_size r st :
flag st = 1 ->
loop_body step_size r st = (st' <- first_row r st ;; ret (set_flag (-1) st')).
Proof.
intros Hf. unfold loop_body. rewrite Hf. cbn [Z.eqb Pos.eqb].
destruct (first_row r st) as [e|st1] eqn:H1; cbn [bind]; [reflexivity|].
apply first_row_flag in H1. rewrite H1, Hf. reflexivity.
Qed.

Lemma loop_body_second step_size r st :
flag st = -1 ->
loop_body step_size r st =
  (st' <- second_row step_size r st ;; ret (set_flag 1 st')).
Proof.
intros Hf. unfold loop_body. rewrite Hf. cbn [Z.eqb Pos.eqb].
destruct (second_row step_size r st) as [e|st1] eqn:H1; cbn [bind]; [reflexivity|].
apply second_row_flag in H1. rewrite H1, Hf. reflexivity.
Qed.

Lemma pair_run step_size (t0 t1 : T) xs ys (post : list (row T)) st :
flag st = 1 ->
for_rows step_size ((Some t0 :: xs) :: (Some t1 :: ys) :: post) st =
  (vertices <- array_transpose xs ys ;;
   _ <- assert (num_ge step_size (around5 (num_sub t1 t0))) AssertionError_step_size ;;
   _ <- assert (num_ge (around5 (num_sub t1 t0)) (of_int 0)) AssertionError_interval ;;
   current_polygon <- new_Polygon vertices ;;
   st <- initial_occupancy step_size (at_interval t0 t1 xs st) ;;
   st <- classify step_size current_polygon st ;;
   st <- coincide step_size current_polygon st ;;
   for_rows step_size post (set_flag 1 st)).
Proof.
intros Hf. cbn [for_rows].
rewrite loop_body_first by exact Hf. cbn [first_row float_row0 bind ret row_tail tail].
rewrite loop_body_second by reflexivity.
unfold second_row, read_interval.
cbn [float_row0 bind ret row_tail tail points_buffer set_points_buffer
     set_flag set_time_buf time_buf fst snd].
fold (at_interval t0 t1 xs st).
destruct (array_transpose xs ys) as [e|v]; cbn [bind]; [reflexivity|].
destruct (assert _ AssertionError_step_size) as [e|[]]; cbn [bind]; [reflexivity|].
destruct (assert _ AssertionError_interval) as [e|[]]; cbn [bind]; [reflexivity|].
destruct (new_Polygon v) as [e|p]; cbn [bind]; [reflexivity|].
cbn [bind ret fst snd].
destruct (initial_occupancy _ _) as [e|st1]; cbn [bind]; [reflexivity|].
destruct (classify _ _ _) as [e|st2]; cbn [bind]; [reflexivity|].
destruct (coincide _ _ _) as [e|st3]; cbn [bind]; reflexivity.
Qed.


Lemma run_split step_size (pre rest : list (row T)) st :
for_rows step_size pre initial_locals = inr st ->
for_rows step_size (pre ++ rest) initial_locals = for_rows step_size rest st.
Proof. intros Hp. rewrite for_rows_app, Hp. reflexivity. Qed.

Lemma read_occupancy_csv_inl step_size (csv : list (row T)) e :
for_rows step_size csv initial_locals = inl e ->
read_occupancy_csv csv step_size = inl e.
Proof. unfold read_occupancy_csv. intros ->. reflexivity. Qed.

Lemma class_of_initial step_size st st' :
initial_occupancy step_size st = inr st' -> class_of st' = class_of st.
Proof.
intros [(_ & ->)|(_ & i & _ & ->)]%initial_occupancy_inr; reflexivity.
Qed.

(** C3, amended.  A trailing row without a partner is read (its time must be
    a number) and then dropped: the result is that of the source without
    it. *)
Theorem odd_trailing_row_ignored step_size (csv : list (row T)) (t : T) (cs : list (cell T)) :
Nat.even (length csv) = true ->
read_occupancy_csv (csv ++ [Some t :: cs]) step_size =
read_occupancy_csv csv step_size.
Proof.
intros He. unfold read_occupancy_csv. rewrite for_rows_app.
destruct (for_rows step_size csv initial_locals) as [e|st] eqn:Hr;
  cbn [bind]; [reflexivity|].
apply even_rows_flag in Hr; [|exact He].
cbn [for_rows]. rewrite loop_body_first by exact Hr. reflexivity.
Qed.

(** A pair of rows whose rounded duration is not [>= 0] raises, whatever the
    locals before it; with readable vertices the exception is one of the two
    assertions. *)
Lemma invalid_pair_raises step_size (post : list (row T))
  (t0 t1 : T) (xs ys : list (cell T)) st :
flag st = 1 ->
num_ge (around5 (num_sub t1 t0)) (of_int 0) = false ->
exists e,
  for_rows step_size ((Some t0 :: xs) :: (Some t1 :: ys) :: post) st = inl e /\
  (forall vertices, array_transpose xs ys = inr vertices ->
     e = AssertionError_step_size \/ e = AssertionError_interval).
Proof.
intros Hf Hneg. rewrite pair_run by exact Hf. rewrite Hneg.
destruct (array_transpose xs ys) as [e|v]; cbn [bind].
- exists e. split; [reflexivity|]. discriminate.
- destruct (num_ge step_size _); cbn.
  + exists AssertionError_interval. auto.
  + exists AssertionError_step_size. auto.
Qed.

(** Rows that raise at the start of a pair make the whole source raise. *)
Lemma raises_after_prefix step_size (pre rest : list (row T)) :
Nat.even (length pre) = true ->
(forall st, flag st = 1 -> raises (for_rows step_size rest st)) ->
raises (read_occupancy_csv (pre ++ rest) step_size).
Proof.
intros He Hrest. unfold read_occupancy_csv. apply bind_raises.
rewrite for_rows_app.
destruct (for_rows step_size pre initial_locals) as [e|st] eqn:Hr; cbn [bind].
- exists e. reflexivity.
- apply Hrest. eapply even_rows_flag; eassumption.
Qed.

(** C4, amended.  An interval whose rounded duration is not [>= 0] stops the
    function with an exception, wherever it stands in the source; when it is
    reached and its vertices are read, the exception is one of the two
    assertions. *)
Theorem negative_duration_raises step_size (pre post : list (row T))
  (t0 t1 : T) (xs ys : list (cell T)) :
Nat.even (length pre) = true ->
num_ge (around5 (num_sub t1 t0)) (of_int 0) = false ->
raises (read_occupancy_csv (pre ++ (Some t0 :: xs) :: (Some t1 :: ys) :: post) step_size)
/\ forall st vertices,
   for_rows step_size pre initial_locals = inr st ->
   array_transpose xs ys = inr vertices ->
   let r := read_occupancy_csv
              (pre ++ (Some t0 :: xs) :: (Some t1 :: ys) :: post) step_size in
   r = inl AssertionError_step_size \/ r = inl AssertionError_interval.
Proof.
intros He Hneg. split.
- apply raises_after_prefix; [exact He|]. intros st Hf.
  destruct (invalid_pair_raises step_size post t0 t1 xs ys st Hf Hneg)
    as (e & He' & _).
  exists e. exact He'.
- intros st v Hr Hv r. subst r. unfold read_occupancy_csv.
  rewrite (run_split _ _ _ _ Hr).
  apply even_rows_flag in Hr; [|exact He].
  destruct (invalid_pair_raises step_size post t0 t1 xs ys st Hr Hneg)
    as (e & -> & Hor).
  cbn [bind]. destruct (Hor v Hv) as [->| ->]; auto.
Qed.

(** The exceptions of lines 105-130 on a validated interval. *)
Lemma phases_exn step_size (p : Shape T) st e :
(st <- initial_occupancy step_size st ;;
 st <- classify step_size p st ;;
 st <- coincide step_size p st ;;
 for_rows step_size [] (set_flag 1 st)) = inl e ->
(e = Exception_chronological /\ class_of st = None) \/ arithmetic e.
Proof.
intros Hb.
apply bind_inl in Hb as [Hb|(st1 & H1 & Hb)];
  [right; eapply initial_occupancy_exn, Hb|].
apply bind_inl in Hb as [Hb|(st2 & H2 & Hb)].
{ apply classify_exn in Hb as [[-> Hn]|[Ha _]]; [left|right; exact Ha].
  rewrite <- (class_of_initial _ _ _ H1). auto. }
apply bind_inl in Hb as [Hb|(st3 & H3 & Hb)];
  [right; eapply coincide_exn, Hb|].
discriminate.
Qed.

(** C5.  An interval whose rounded duration exceeds the step size fails the
    assertion of line 99; one whose rounded duration is at most the step size
    passes it. *)
Theorem step_size_validation step_size (pre post : list (row T)) (r1 r2 : row T)
  (t0 t1 : T) (vertices : list (T * T)) (st : locals T) :
Nat.even (length pre) = true ->
for_rows step_size pre initial_locals = inr st ->
interval r1 r2 t0 t1 vertices ->
(num_lt step_size (around5 (num_sub t1 t0)) = true ->
 read_occupancy_csv (pre ++ r1 :: r2 :: post) step_size = inl AssertionError_step_size)
/\
(num_ge step_size (around5 (num_sub t1 t0)) = true ->
 for_rows step_size (pre ++ [r1; r2]) initial_locals <> inl AssertionError_step_size).
Proof.
intros He Hr (xs & ys & -> & -> & Hv).
pose proof (even_rows_flag _ _ _ He Hr) as Hf.
split; intros Hc.
- apply read_occupancy_csv_inl. rewrite (run_split _ _ _ _ Hr).
  rewrite pair_run by exact Hf. rewrite Hv. cbn [bind].
  unfold num_ge. rewrite (lt_not_ge _ _ Hc). reflexivity.
- rewrite (run_split _ _ _ _ Hr). rewrite pair_run by exact Hf.
  rewrite Hv, Hc. cbn [bind assert ret].
  destruct (num_ge (around5 _) _); cbn [bind assert ret raise]; [|discriminate].
  destruct (new_Polygon vertices) as [e|p] eqn:Hp; cbn [bind].
  + intros [= ->]. apply new_Polygon_inl in Hp as [Hp|Hp]; discriminate.
  + intros Hb. apply phases_exn in Hb as [[Hb _]|[Hb|[Hb|Hb]]]; discriminate.
Qed.

(** C7.  A validated interval that starts and ends after the grid time, with
    vertices the polygon of line 103 can be built from, raises the exception
    of line 126; an interval of one of the three classes does not. *)
Theorem chronological_order_error step_size (pre post : list (row T)) (r1 r2 : row T)
  (t0 t1 : T) (vertices : list (T * T)) (st : locals T) :
Nat.even (length pre) = true ->
for_rows step_size pre initial_locals = inr st ->
interval r1 r2 t0 t1 vertices ->
valid step_size t0 t1 = true ->
let g := scenario_time_step st in
(new_Polygon vertices = inr (Polygon vertices) ->
 num_lt g t0 = true -> num_lt g t1 = true ->
 read_occupancy_csv (pre ++ r1 :: r2 :: post) step_size = inl Exception_chronological)
/\
(num_lt t1 g = true \/ num_eq t1 g = true \/
   (num_le t0 g = true /\ num_lt g t1 = true) ->
 for_rows step_size (pre ++ [r1; r2]) initial_locals <> inl Exception_chronological).
Proof.
intros He Hr (xs & ys & -> & -> & Hv) [Hv1 Hv2]%andb_true_iff g.
pose proof (even_rows_flag _ _ _ He Hr) as Hf.
split.
- intros Hp H0g H1g.
  apply read_occupancy_csv_inl. rewrite (run_split _ _ _ _ Hr).
  rewrite pair_run by exact Hf. rewrite Hv, Hv1, Hv2. cbn [bind assert ret].
  rewrite Hp. cbn [bind].
  unfold initial_occupancy.
  cbn [scenario_time_step time_buf at_interval set_time_buf set_flag
       set_points_buffer fst snd]. fold g.
  replace (num_eq g (of_int 0) && num_eq t0 (of_int 0)) with false.
  2:{ symmetry. apply andb_false_iff.
      destruct (num_eq g (of_int 0)) eqn:Hg0; [right|left; reflexivity].
      eapply lt_not_both_eq; eassumption. }
  cbn [bind ret]. rewrite classify_none; [reflexivity|].
  unfold class_of.
  cbn [scenario_time_step time_buf at_interval set_time_buf set_flag
       set_points_buffer fst snd]. fold g.
  rewrite (lt_asym _ _ H1g), (lt_not_eq _ _ H1g), (lt_not_ge _ _ H0g).
  reflexivity.
- intros Hc. rewrite (run_split _ _ _ _ Hr). rewrite pair_run by exact Hf.
  rewrite Hv, Hv1, Hv2. cbn [bind assert ret].
  destruct (new_Polygon vertices) as [e|p] eqn:Hp; cbn [bind];
    [intros [= ->]; apply new_Polygon_inl in Hp as [Hp|Hp]; discriminate|].
  intros Hb. apply phases_exn in Hb as [[_ Hn]|[Hb|[Hb|Hb]]]; try discriminate.
  revert Hn. unfold class_of.
  cbn [scenario_time_step time_buf at_interval set_time_buf set_flag
       set_points_buffer fst snd]. fold g.
  destruct Hc as [Hc|[Hc|[Hc0 Hc1]]].
  + rewrite Hc. discriminate.
  + rewrite (eq_not_lt _ _ Hc), Hc. discriminate.
  + rewrite (lt_asym _ _ Hc1), (lt_not_eq _ _ Hc1), Hc0. discriminate.
Qed.


(** An interval that starts at or before the grid time and ends after it,
    with vertices the polygon of line 103 can be built from, closes out the
    grid point and seeds the next one: its polygon is appended
    to the list object of the buffer, a cumulative occupancy over that list
    object is appended at the grid index, the name [shape_list] is bound to a
    new list object that holds the polygon alone, one coinciding occupancy
    with the polygon is appended at the same index, and the grid time
    advances by one step. *)
Theorem straddling_interval step_size (pre : list (row T)) (r1 r2 : row T)
  (t0 t1 : T) (vertices : list (T * T)) (st : locals T) (i : Z)
  (buffer : list (Shape T)) :
Nat.even (length pre) = true ->
for_rows step_size pre initial_locals = inr st ->
interval r1 r2 t0 t1 vertices ->
valid step_size t0 t1 = true ->
new_Polygon vertices = inr (Polygon vertices) ->
let g := scenario_time_step st in
num_le t0 g = true -> num_lt g t1 = true ->
grid_index step_size st = inr i ->
heap st !! shape_list st = Some buffer ->
exists st' initial,
  for_rows step_size (pre ++ [r1; r2]) initial_locals = inr st' /\
  occupancies_cumulative st' =
    occupancies_cumulative st ++ initial ++
      [mkOccupancy i (ShapeGroup (shape_list st))] /\
  (initial = [] \/ initial = [mkOccupancy i (ShapeGroup (shape_list st))]) /\
  heap st' !! shape_list st = Some (buffer ++ [Polygon vertices]) /\
  shape_list st' = length (heap st) /\
  heap st' !! shape_list st' = Some [Polygon vertices] /\
  occupancies_coinciding st' =
    occupancies_coinciding st ++ [mkOccupancy i (Polygon vertices)] /\
  scenario_time_step st' = num_add g step_size.
Proof.
intros He Hr (xs & ys & -> & -> & Hv) [Hv1 Hv2]%andb_true_iff Hp g H0g H1g Hi Hbuf.
pose proof (even_rows_flag _ _ _ He Hr) as Hf.
rewrite (run_split _ _ _ _ Hr). rewrite pair_run by exact Hf.
rewrite Hv, Hv1, Hv2. cbn [bind assert ret]. rewrite Hp. cbn [bind].
assert (H1 : exists st1 initial,
  initial_occupancy step_size (at_interval t0 t1 xs st) = inr st1
  /\ scenario_time_step st1 = g /\ time_buf st1 = (t0, t1)
  /\ occupancies_coinciding st1 = occupancies_coinciding st
  /\ heap st1 = heap st /\ shape_list st1 = shape_list st
  /\ occupancies_cumulative st1 = occupancies_cumulative st ++ initial
  /\ (initial = [] \/ initial = [mkOccupancy i (ShapeGroup (shape_list st))])).
{ unfold initial_occupancy, emit_cumulative.
  destruct (_ && _).
  - change (grid_index step_size (at_interval t0 t1 xs st))
      with (grid_index step_size st). rewrite Hi. cbn [bind ret].
    eexists _, _. repeat split; eauto.
  - exists (at_interval t0 t1 xs st), []. cbn. rewrite app_nil_r. auto 10. }
destruct H1 as (st1 & initial & -> & Hg1 & Hb1 & Hc1 & Hh1 & Hl1 & Hcu1 & Hin).
cbn [bind].
assert (Hi1 : grid_index step_size st1 = inr i).
{ unfold grid_index in *. rewrite Hg1. exact Hi. }
unfold classify. rewrite Hb1, Hg1. cbn [fst snd].
rewrite (lt_asym _ _ H1g), (lt_not_eq _ _ H1g), H0g.
unfold emit_cumulative.
change (grid_index step_size (shape_list_append (Polygon vertices) st1))
  with (grid_index step_size st1).
rewrite Hi1. cbn [bind ret].
unfold coincide.
cbn [scenario_time_step time_buf shape_list_new set_occupancies_cumulative
     shape_list_append].
rewrite Hb1, Hg1. cbn [fst snd]. unfold num_ge.
rewrite (lt_le _ _ H1g), H0g. cbn [andb].
match goal with |- context [grid_index step_size ?s] =>
  change (grid_index step_size s) with (grid_index step_size st1) end.
rewrite Hi1. cbn [bind ret for_rows].
assert (Hlt : (shape_list st < length (heap st))%nat).
{ apply lookup_lt_is_Some. eauto. }
eexists _, initial. split; [reflexivity|].
cbn [occupancies_cumulative occupancies_coinciding scenario_time_step heap
     shape_list set_flag set_scenario_time_step set_occupancies_coinciding
     shape_list_append shape_list_new set_occupancies_cumulative].
rewrite Hcu1, Hc1, Hh1, Hl1, <- app_assoc.
repeat split; try reflexivity.
- exact Hin.
- rewrite length_alter.
  rewrite list_lookup_alter_ne by lia.
  rewrite lookup_app_l by (rewrite length_alter; exact Hlt).
  rewrite list_lookup_alter_eq, Hbuf. reflexivity.
- rewrite length_alter. reflexivity.
- rewrite length_alter.
  rewrite list_lookup_alter_eq.
  rewrite lookup_app_r by (rewrite length_alter; lia).
  rewrite length_alter, Nat.sub_diag. reflexivity.
Qed.

(** *** Every coinciding index is a cumulative index *)

Lemma class_before st :
class_of st = Some Before ->
num_lt (snd (time_buf st)) (scenario_time_step st) = true.
Proof.
unfold class_of. destruct (num_lt _ _); [reflexivity|].
destruct (num_eq _ _); [discriminate|]. destruct (num_le _ _); discriminate.
Qed.

Lemma classify_coincide_covered step_size (p : Shape T) st st2 st3 :
covered st ->
classify step_size p st = inr st2 ->
coincide step_size p st2 = inr st3 ->
covered st3.
Proof.
intros Hcov
  [(Hcl & ->)|(i & Hi & [(_ & ->)|(_ & ->)])]%classify_inr
  [(Hc & ->)|(Hc & j & Hj & ->)]%coincide_inr.
- exact Hcov.
- apply class_before in Hcl. apply andb_true_iff in Hc as [Hc _].
  unfold num_ge in Hc. cbn in Hc. rewrite (lt_not_ge _ _ Hcl) in Hc.
  discriminate.
- intros k Hk. cbn in *. rewrite map_app, in_app_iff. auto.
- change (grid_index step_size st = inr j) in Hj.
  assert (j = i) as -> by congruence.
  intros k. cbn. rewrite !map_app, !in_app_iff. cbn. intuition.
- intros k Hk. cbn in *. rewrite map_app, in_app_iff. auto.
- change (grid_index step_size st = inr j) in Hj.
  assert (j = i) as -> by congruence.
  intros k. cbn. rewrite !map_app, !in_app_iff. cbn. intuition.
Qed.

Lemma second_row_covered step_size r st st' :
covered st -> second_row step_size r st = inr st' -> covered st'.
Proof.
unfold second_row. intros Hcov Hb. inv_bind Hb. destruct a as [st1 p].
apply read_interval_inr in Ha as (t1 & v & _ & _ & _ & _ & -> & _).
eapply classify_coincide_covered; [|exact Ha1|exact Hb].
apply initial_occupancy_inr in Ha0 as [(_ & ->)|(_ & i & _ & ->)].
- exact Hcov.
- intros k Hk. cbn in *. rewrite map_app, in_app_iff. auto.
Qed.

Lemma loop_body_covered step_size r st st' :
covered st -> loop_body step_size r st = inr st' -> covered st'.
Proof.
unfold loop_body. intros Hcov Hb. inv_bind Hb. injection Hb as <-.
change (covered a).
destruct (flag st =? 1).
- unfold first_row in Ha. inv_bind Ha. injection Ha as <-. exact Hcov.
- destruct (flag st =? -1).
  + eapply second_row_covered; eassumption.
  + injection Ha as <-. exact Hcov.
Qed.

Lemma for_rows_covered step_size (rows : list (row T)) st st' :
covered st -> for_rows step_size rows st = inr st' -> covered st'.
Proof.
revert st. induction rows as [|r rows IH]; intros st Hcov Hb.
- injection Hb as <-. exact Hcov.
- cbn [for_rows] in Hb. inv_bind Hb.
  eapply IH; [|exact Hb]. eapply loop_body_covered; eassumption.
Qed.

(** C9.  In the result, and after every prefix of the rows, each time index of
    the coinciding sequence is a time index of the cumulative sequence. *)
Theorem coinciding_index_in_cumulative step_size (csv : list (row T)) :
(forall res, read_occupancy_csv csv step_size = inr res ->
   forall i, In i (time_indices (occupancy_coinciding_prediction res)) ->
     In i (time_indices (occupancy_cumulative_prediction res)))
/\
(forall pre post st, csv = pre ++ post ->
   for_rows step_size pre initial_locals = inr st ->
   forall i, In i (map time_step (occupancies_coinciding st)) ->
     In i (map time_step (occupancies_cumulative st))).
Proof.
assert (Hall : forall rows st,
  for_rows step_size rows initial_locals = inr st -> covered st).
{ intros rows st. apply for_rows_covered. intros i []. }
split.
- unfold read_occupancy_csv. intros res Hb. inv_bind Hb. injection Hb as <-.
  exact (Hall _ _ Ha).
- intros pre post st _ Hb. exact (Hall _ _ Hb).
Qed.

End Flow.

(** ** The time indices follow the grid *)

Section Grid.
Context {T : Type} `{NumLaws T}.

Implicit Types (st : locals T) (r : row T) (step_size : T).

(** *** Sorted lists, read by position *)

Lemma sorted_snoc (ks : list nat) (n : nat) :
StronglySorted Nat.le ks -> Forall (fun k => (k <= n)%nat) ks ->
StronglySorted Nat.le (ks ++ [n]).
Proof.
induction 1 as [|k ks Hs IH Hk]; intros Hn; cbn.
- repeat constructor.
- apply Forall_cons in Hn as [Hkn Hn]. constructor; [auto|].
  apply Forall_app. split; [exact Hk|]. repeat constructor. exact Hkn.
Qed.

Lemma sorted_lookup_le (ks : list nat) :
StronglySorted Nat.le ks ->
forall j k a b, (j < k)%nat -> ks !! j = Some a -> ks !! k = Some b -> (a <= b)%nat.
Proof.
induction 1 as [|c ks Hs IH Hc]; intros j k a b Hjk Hj Hk.
- discriminate Hj.
- destruct k as [|k]; [lia|]. cbn in Hk. destruct j as [|j].
  + injection Hj as <-. rewrite Forall_lookup in Hc. eapply Hc, Hk.
  + cbn in Hj. eapply (IH j k); [lia|eassumption..].
Qed.

Lemma sorted_map_lookup {A B} (R : B -> B -> Prop) (f : A -> B) (l : list A) :
(forall j k x y, (j < k)%nat -> l !! j = Some x -> l !! k = Some y -> R (f x) (f y)) ->
StronglySorted R (map f l).
Proof.
induction l as [|a l IH]; intros Hl; cbn; constructor.
- apply IH. intros j k x y Hjk Hj Hk. apply (Hl (S j) (S k)); [lia|exact Hj|exact Hk].
- apply List.Forall_map. apply Forall_lookup. intros k y Hk.
  apply (Hl 0%nat (S k)); [lia|reflexivity|exact Hk].
Qed.

(** *** The invariant of the loop *)

Lemma follows_grid_same step_size st st' :
occupancies_cumulative st' = occupancies_cumulative st ->
occupancies_coinciding st' = occupancies_coinciding st ->
scenario_time_step st' = scenario_time_step st ->
follows_grid step_size st -> follows_grid step_size st'.
Proof.
intros Hcu Hco Hg [H1 H2 H3]. split; rewrite ?Hcu, ?Hco, ?Hg; assumption.
Qed.

(** The grid index of line 107, 113, 119 or 129 is the index of the grid time
    the loop has reached. *)
Lemma follows_grid_index step_size st :
follows_grid step_size st ->
grid_index step_size st = index_at step_size (length (occupancies_coinciding st)).
Proof. intros [Hg _ _]. unfold grid_index, index_at. rewrite Hg. reflexivity. Qed.

Lemma follows_grid_emit step_size st i (s : Shape T) :
follows_grid step_size st ->
grid_index step_size st = inr i ->
follows_grid step_size
  (set_occupancies_cumulative (occupancies_cumulative st ++ [mkOccupancy i s]) st).
Proof.
intros Hf Hi. rewrite (follows_grid_index _ _ Hf) in Hi.
destruct Hf as [Hg Hco (ks & Hks & Hs & Hle)].
split; cbn.
- exact Hg.
- exact Hco.
- exists (ks ++ [length (occupancies_coinciding st)]). split; [|split].
  + apply Forall2_app; [exact Hks|]. repeat constructor. exact Hi.
  + apply sorted_snoc; assumption.
  + apply Forall_app. split; [exact Hle|]. repeat constructor.
Qed.

Lemma follows_grid_advance step_size st i (p : Shape T) :
follows_grid step_size st ->
grid_index step_size st = inr i ->
follows_grid step_size
  (set_scenario_time_step (num_add (scenario_time_step st) step_size)
     (set_occupancies_coinciding (occupancies_coinciding st ++ [mkOccupancy i p]) st)).
Proof.
intros Hf Hi. rewrite (follows_grid_index _ _ Hf) in Hi.
destruct Hf as [Hg Hco (ks & Hks & Hs & Hle)].
split; cbn.
- rewrite length_app, Nat.add_1_r. cbn. rewrite Hg. reflexivity.
- intros k o Hk. apply lookup_app_Some in Hk as [Hk|[Hlen Hk]].
  + eauto.
  + apply list_lookup_singleton_Some in Hk as [Hk <-].
    assert (k = length (occupancies_coinciding st)) as -> by lia.
    exact Hi.
- exists ks. split; [exact Hks|]. split; [exact Hs|].
  eapply Forall_impl; [exact Hle|]. cbn. intros k Hk. rewrite length_app. lia.
Qed.

Lemma initial_locals_grid step_size : follows_grid step_size (initial_locals (T:=T)).
Proof.
split; cbn.
- reflexivity.
- intros k o Hk. discriminate Hk.
- exists []. repeat constructor.
Qed.

Lemma initial_occupancy_grid step_size st st' :
follows_grid step_size st ->
initial_occupancy step_size st = inr st' -> follows_grid step_size st'.
Proof.
intros Hf [(_ & ->)|(_ & i & Hi & ->)]%initial_occupancy_inr; [exact Hf|].
apply follows_grid_emit; assumption.
Qed.

Lemma classify_grid step_size (p : Shape T) st st' :
follows_grid step_size st ->
classify step_size p st = inr st' -> follows_grid step_size st'.
Proof.
intros Hf [(_ & ->)|(i & Hi & [(_ & ->)|(_ & ->)])]%classify_inr.
- eapply follows_grid_same; [..|exact Hf]; reflexivity.
- eapply follows_grid_same;
    [..|exact (follows_grid_emit _ _ _ (ShapeGroup (shape_list st)) Hf Hi)];
    reflexivity.
- eapply follows_grid_same;
    [..|exact (follows_grid_emit _ _ _ (ShapeGroup (shape_list st)) Hf Hi)];
    reflexivity.
Qed.

Lemma coincide_grid step_size (p : Shape T) st st' :
follows_grid step_size st ->
coincide step_size p st = inr st' -> follows_grid step_size st'.
Proof.
intros Hf [(_ & ->)|(_ & i & Hi & ->)]%coincide_inr; [exact Hf|].
apply follows_grid_advance; assumption.
Qed.

Lemma second_row_grid step_size r st st' :
follows_grid step_size st ->
second_row step_size r st = inr st' -> follows_grid step_size st'.
Proof.
unfold second_row. intros Hf Hb. inv_bind Hb. destruct a as [st1 p].
apply read_interval_inr in Ha as (t1 & v & _ & _ & _ & _ & -> & _).
eapply coincide_grid; [|exact Hb].
eapply classify_grid; [|exact Ha1].
eapply initial_occupancy_grid; [|exact Ha0].
eapply follows_grid_same; [..|exact Hf]; reflexivity.
Qed.

Lemma loop_body_grid step_size r st st' :
follows_grid step_size st ->
loop_body step_size r st = inr st' -> follows_grid step_size st'.
Proof.
unfold loop_body. intros Hf Hb. inv_bind Hb. injection Hb as <-.
eapply follows_grid_same with (st := a); try reflexivity.
destruct (flag st =? 1).
- unfold first_row in Ha. inv_bind Ha. injection Ha as <-.
  eapply follows_grid_same; [..|exact Hf]; reflexivity.
- destruct (flag st =? -1).
  + eapply second_row_grid; eassumption.
  + injection Ha as <-. exact Hf.
Qed.

Lemma for_rows_grid step_size (rows : list (row T)) st st' :
follows_grid step_size st ->
for_rows step_size rows st = inr st' -> follows_grid step_size st'.
Proof.
revert st. induction rows as [|r rows IH]; intros st Hf Hb.
- injection Hb as <-. exact Hf.
- cbn [for_rows] in Hb. inv_bind Hb.
  eapply IH; [|exact Hb]. eapply loop_body_grid; eassumption.
Qed.

(** *** A coinciding occupancy needs a validated interval and a division *)

Lemma second_row_step_used step_size r st st' (U : Prop) :
(forall t0 t1 g q, valid step_size t0 t1 = true ->
   num_div g step_size = inr q -> U) ->
(occupancies_coinciding st <> [] -> U) ->
second_row step_size r st = inr st' ->
occupancies_coinciding st' <> [] -> U.
Proof.
unfold second_row. intros HU Hst Hb. inv_bind Hb. destruct a as [st1 p].
apply read_interval_inr in Ha as (t1 & v & _ & _ & Hv1 & Hv2 & -> & _).
cbn [fst snd] in *.
assert (Hc : occupancies_coinciding a1 = occupancies_coinciding st).
{ apply classify_inr in Ha1 as [(_ & ->)|(i & _ & [(_ & ->)|(_ & ->)])];
    apply initial_occupancy_inr in Ha0 as [(_ & ->)|(_ & j & _ & ->)];
    reflexivity. }
apply coincide_inr in Hb as [(_ & ->)|(_ & i & Hi & ->)].
- rewrite Hc. exact Hst.
- intros _. unfold grid_index in Hi. apply bind_inr in Hi as (q & Hq & _).
  eapply HU; [|exact Hq]. unfold valid. rewrite Hv1, Hv2. reflexivity.
Qed.

Lemma for_rows_step_used step_size (rows : list (row T)) st st' (U : Prop) :
(forall t0 t1 g q, valid step_size t0 t1 = true ->
   num_div g step_size = inr q -> U) ->
(occupancies_coinciding st <> [] -> U) ->
for_rows step_size rows st = inr st' ->
occupancies_coinciding st' <> [] -> U.
Proof.
intros HU. revert st. induction rows as [|r rows IH]; intros st Hst Hb.
- injection Hb as <-. exact Hst.
- cbn [for_rows] in Hb. inv_bind Hb. eapply IH; [|exact Hb].
  unfold loop_body in Ha. inv_bind Ha. injection Ha as <-.
  change (occupancies_coinciding a0 <> [] -> U).
  destruct (flag st =? 1).
  + unfold first_row in Ha0. inv_bind Ha0. injection Ha0 as <-. exact Hst.
  + destruct (flag st =? -1).
    * eapply second_row_step_used; eassumption.
    * injection Ha0 as <-. exact Hst.
Qed.


End Grid.

(** ** The grid times of binary64 *)

Module Binary64Grid.
Import Binary64 Binary64Laws.

(** *** Rounding a positive number does not give zero *)

Lemma shr_1_half (mrs : shr_record) :
0 <= shr_m mrs -> shr_m (shr_1 mrs) = shr_m mrs / 2.
Proof.
destruct mrs as [m r s]. cbn [shr_m]. intros Hm. rewrite <- Z.div2_div.
destruct m as [|[p|p|]|p]; try reflexivity. lia.
Qed.

Lemma iter_shr_1 (p : positive) (mrs : shr_record) :
0 <= shr_m mrs ->
shr_m (SpecFloat.iter_pos shr_1 p mrs) = shr_m mrs / 2 ^ Zpos p.
Proof.
revert mrs. induction p as [p IH|p IH|]; intros mrs Hm; cbn [SpecFloat.iter_pos].
- assert (H1 : 0 <= shr_m (shr_1 mrs)).
  { rewrite shr_1_half by exact Hm. apply Z.div_pos; lia. }
  assert (H2 : 0 <= shr_m (SpecFloat.iter_pos shr_1 p (shr_1 mrs))).
  { rewrite IH by exact H1. apply Z.div_pos; [exact H1|]. apply Z.pow_pos_nonneg; lia. }
  rewrite IH by exact H2. rewrite IH by exact H1. rewrite shr_1_half by exact Hm.
  rewrite !Z.div_div by (try apply Z.pow_pos_nonneg; lia).
  f_equal. replace (Z.pos p~1) with (1 + Z.pos p + Z.pos p) by lia.
  rewrite !Z.pow_add_r, Z.pow_1_r by lia. ring.
- assert (H2 : 0 <= shr_m (SpecFloat.iter_pos shr_1 p mrs)).
  { rewrite IH by exact Hm. apply Z.div_pos; [exact Hm|]. apply Z.pow_pos_nonneg; lia. }
  rewrite IH by exact H2. rewrite IH by exact Hm.
  rewrite !Z.div_div by (try apply Z.pow_pos_nonneg; lia).
  f_equal. replace (Z.pos p~0) with (Z.pos p + Z.pos p) by lia.
  rewrite Z.pow_add_r by lia. ring.
- rewrite shr_1_half by exact Hm. reflexivity.
Qed.

Lemma digits2_pos_bound (m : positive) :
2 ^ (Zpos (digits2_pos m) - 1) <= Zpos m.
Proof.
induction m as [m IH|m IH|]; cbn [digits2_pos].
- rewrite Pos2Z.inj_succ.
  replace (Z.succ (Z.pos (digits2_pos m)) - 1) with (1 + (Z.pos (digits2_pos m) - 1)) by lia.
  rewrite Z.pow_add_r, Z.pow_1_r by lia. lia.
- rewrite Pos2Z.inj_succ.
  replace (Z.succ (Z.pos (digits2_pos m)) - 1) with (1 + (Z.pos (digits2_pos m) - 1)) by lia.
  rewrite Z.pow_add_r, Z.pow_1_r by lia. lia.
- cbn. lia.
Qed.

(** The shift of the rounding leaves a positive mantissa positive when the
    exponent is at least the least one of the format. *)
Lemma shr_fexp_positive (m : positive) (e : Z) (l : location) :
emin <= e ->
0 < shr_m (fst (shr_fexp prec emax (Zpos m) e l)) /\
emin <= snd (shr_fexp prec emax (Zpos m) e l).
Proof.
intros He. unfold shr_fexp, shr. cbn [Zdigits2].
assert (Hm : shr_m (shr_record_of_loc (Zpos m) l) = Zpos m).
{ destruct l as [|[]]; reflexivity. }
destruct (fexp prec emax (Zpos (digits2_pos m) + e) - e) as [|p|p] eqn:Hn;
  cbn [fst snd]; rewrite ?Hm; try (split; [lia|exact He]).
split.
- rewrite iter_shr_1 by (rewrite Hm; lia). rewrite Hm.
  apply Z.div_str_pos. split; [apply Z.pow_pos_nonneg; lia|].
  etransitivity; [|apply digits2_pos_bound].
  apply Z.pow_le_mono_r; [lia|].
  unfold fexp, emin, prec, emax in *. lia.
- unfold fexp, emin, prec, emax in *. lia.
Qed.

Lemma binary_round_aux_positive (m : positive) (e : Z) (l : location) :
emin <= e ->
binary_round_aux prec emax false (Zpos m) e l = S754_infinity false \/
exists m' e', binary_round_aux prec emax false (Zpos m) e l = S754_finite false m' e'.
Proof.
intros He. unfold binary_round_aux.
destruct (shr_fexp_positive m e l He) as [Hm1 He1].
destruct (shr_fexp prec emax (Zpos m) e l) as [mrs1 e1]. cbn [fst snd] in *.
assert (Hr : 0 < round_nearest_even (shr_m mrs1) (loc_of_shr_record mrs1)).
{ unfold round_nearest_even.
  destruct (loc_of_shr_record mrs1) as [|[]]; try lia.
  destruct (Z.even (shr_m mrs1)); lia. }
destruct (round_nearest_even _ _) as [|m2|m2]; try lia.
destruct (shr_fexp_positive m2 e1 loc_Exact He1) as [Hm2 He2].
destruct (shr_fexp prec emax (Zpos m2) e1 loc_Exact) as [mrs2 e2]. cbn [fst snd] in *.
destruct (shr_m mrs2) as [|m3|m3]; try lia.
destruct (e2 <=? emax - prec); eauto.
Qed.

Lemma binary_round_positive (m : positive) (e : Z) :
emin <= e ->
binary_round prec emax false m e = S754_infinity false \/
exists m' e', binary_round prec emax false m e = S754_finite false m' e'.
Proof.
intros He. unfold binary_round, shl_align.
destruct (fexp prec emax (Zpos (digits2_pos m) + e) - e) eqn:Hn;
  apply binary_round_aux_positive; try exact He.
unfold fexp, emin, prec, emax in *. lia.
Qed.

Lemma valid_exponent (s : bool) (m : positive) (e : Z) :
valid_binary (S754_finite s m e) = true -> emin <= e.
Proof.
cbn. unfold bounded, canonical_mantissa. intros [Hc _]%andb_true_iff.
apply Z.eqb_eq in Hc. unfold fexp, emin, prec, emax in *. lia.
Qed.

(** *** Zero, the positive floats and the sum *)

Lemma eqb_zero (x : float) :
num_eq x (of_int 0) = true <-> exists s, Prim2SF x = S754_zero s.
Proof.
rewrite eqb_compare. change (Prim2SF (of_int 0)) with (S754_zero false).
destruct (Prim2SF x) as [s|s| |s m e]; cbn; split;
  try discriminate; try (destruct s; discriminate); eauto;
  intros [s' Hs]; discriminate Hs.
Qed.

Lemma ltb_zero (x : float) :
num_lt (of_int 0) x = true <->
Prim2SF x = S754_infinity false \/ exists m e, Prim2SF x = S754_finite false m e.
Proof.
rewrite ltb_compare. change (Prim2SF (of_int 0)) with (S754_zero false).
destruct (Prim2SF x) as [s|[]| |[] m e]; cbn; split;
  try discriminate; eauto;
  intros [Hs|(m' & e' & Hs)]; discriminate Hs.
Qed.

Lemma leb_zero (x : float) :
num_le (of_int 0) x = true <->
(exists s, Prim2SF x = S754_zero s) \/ num_lt (of_int 0) x = true.
Proof.
rewrite ltb_compare, leb_compare. change (Prim2SF (of_int 0)) with (S754_zero false).
destruct (Prim2SF x) as [s|[]| |[] m e]; cbn; split;
  try (intros [Hs|Hs]; discriminate Hs); eauto;
  intros [[s' Hs]|Hs]; discriminate Hs.
Qed.

(** The sum of a float that is zero or positive and a positive float is
    positive. *)
Lemma add_positive (x s : float) :
num_le (of_int 0) x = true -> num_lt (of_int 0) s = true ->
num_lt (of_int 0) (num_add x s) = true.
Proof.
rewrite leb_zero, !ltb_zero. cbn [num_add num]. rewrite FloatAxioms.add_spec.
pose proof (FloatAxioms.Prim2SF_valid x) as Vx.
pose proof (FloatAxioms.Prim2SF_valid s) as Vs.
intros [[sx Hx]|[Hx|(mx & ex & Hx)]] [Hs|(ms & es & Hs)];
  rewrite Hx, Hs in *; unfold SF64add; cbn [SFadd]; eauto.
cbn [cond_Zopp Z.add binary_normalize].
apply binary_round_positive.
apply valid_exponent in Vx, Vs. lia.
Qed.

(** A step size a coinciding occupancy was computed with is positive: it is
    at least a rounded duration that is at least 0, and it is not zero. *)
Lemma step_size_positive (step_size t0 t1 g q : float) :
valid step_size t0 t1 = true ->
num_div g step_size = inr q ->
num_lt (of_int 0) step_size = true.
Proof.
unfold valid, num_ge. intros [H1 H2]%andb_true_iff Hd.
cbn [num_div num] in Hd. unfold float_div in Hd.
destruct (PrimFloat.eqb step_size 0) eqn:Hz; [discriminate Hd|].
assert (Hnz : ~ exists s, Prim2SF step_size = S754_zero s).
{ rewrite <- eqb_zero. cbn. rewrite Hz. discriminate. }
apply leb_zero in H2. rewrite ltb_zero in H2.
apply leb_compare in H1. apply ltb_zero.
destruct H2 as [[s Ha]|[Ha|(m & e & Ha)]]; rewrite Ha in H1;
  destruct (Prim2SF step_size) as [ss|[]| |[] ms es]; cbn in H1;
  try (destruct H1 as [H1|H1]; discriminate H1);
  try (destruct s; destruct H1 as [H1|H1]; discriminate H1);
  eauto; exfalso; eauto.
Qed.

(** The grid time after at least one advance by a positive step is
    positive. *)
Lemma grid_time_positive (step_size : float) (k : nat) :
num_lt (of_int 0) step_size = true ->
num_lt (of_int 0) (grid_time step_size (S k)) = true.
Proof.
intros Hs. induction k as [|k IH]; cbn [grid_time] in *.
- apply add_positive; [reflexivity|exact Hs].
- apply add_positive; [|exact Hs]. apply lt_le, IH.
Qed.

(** The index computed at a grid time that is zero is 0. *)
Lemma index_of_zero (step_size : float) (st : locals float) (i : Z) :
num_eq (scenario_time_step st) (of_int 0) = true ->
grid_index step_size st = inr i -> i = 0.
Proof.
rewrite eqb_zero. intros [s Hg]. unfold grid_index.
cbn [num_div int num]. unfold float_div.
destruct (PrimFloat.eqb step_size 0); [discriminate|]. cbn [bind ret].
unfold float_int. rewrite FloatAxioms.div_spec, Hg. unfold SF64div.
destruct (Prim2SF step_size) as [ss|ss| |ss ms es]; cbn; unfold raise, ret;
  congruence.
Qed.

(** Once a coinciding occupancy has been appended the grid time is
    positive. *)
Lemma advanced_grid_time_positive (step_size : float) (rows : list (row float))
  (st : locals float) :
for_rows step_size rows initial_locals = inr st ->
occupancies_coinciding st <> [] ->
num_lt (of_int 0) (scenario_time_step st) = true.
Proof.
intros Hr Hne.
assert (Hs : num_lt (of_int 0) step_size = true).
{ eapply (for_rows_step_used (T:=float) step_size rows initial_locals st);
    [| |exact Hr|exact Hne].
  - intros t0 t1 g q. apply step_size_positive.
  - intros Hc. exfalso. apply Hc. reflexivity. }
destruct (for_rows_grid (T:=float) _ _ _ _ (initial_locals_grid step_size) Hr)
  as [Hg _ _].
rewrite Hg. destruct (occupancies_coinciding st) as [|o l]; [congruence|].
cbn [length]. apply grid_time_positive, Hs.
Qed.


End Binary64Grid.

(** ** Runs on the sources *)

Module Runs.
Import Sources.
Local Set Warnings "-inexact-float".

(** *** Scenario A *)

(** C2.  On a grid of step 1.0 the intervals [0,1] over P1 and [1,2] over P2,
    two polygons the constructor of line 103 accepts (three vertices or more,
    all coordinates finite),
    give the coinciding occupancies P1 at index 0 and P2 at index 1, and the
    cumulative occupancies {P1} at index 0 and {P1, P2} at index 1.  The
    cumulative list has three entries: the initial one at index 0, the
    close-out of grid point 0 and the close-out of grid point 1.  The first
    two share one list object, which holds P1; the third holds P1 and P2; the
    list the name [shape_list] is bound to at the end, after the reset, holds
    P2. *)
Theorem scenario_A_occupancies (xs1 ys1 xs2 ys2 : list (cell float))
  (V1 V2 : list (float * float)) :
array_transpose xs1 ys1 = inr V1 ->
array_transpose xs2 ys2 = inr V2 ->
new_Polygon V1 = inr (Polygon V1) ->
new_Polygon V2 = inr (Polygon V2) ->
let res :=
  mkResult
    (mkSetBasedPrediction 0
       [mkOccupancy 0 (Polygon V1); mkOccupancy 1 (Polygon V2)])
    (mkSetBasedPrediction 0
       [mkOccupancy 0 (ShapeGroup 0%nat); mkOccupancy 0 (ShapeGroup 0%nat);
        mkOccupancy 1 (ShapeGroup 1%nat)])
    [[Polygon V1]; [Polygon V1; Polygon V2]; [Polygon V2]] in
read_occupancy_csv
  [Some 0%float :: xs1; Some 1%float :: ys1;
   Some 1%float :: xs2; Some 2%float :: ys2] 1%float = inr res
/\ cumulative_groups res =
     [(0, [Polygon V1]); (0, [Polygon V1]); (1, [Polygon V1; Polygon V2])]
/\ (forall i group, In (i, group) (cumulative_groups res) <->
      (i = 0 /\ group = [Polygon V1]) \/
      (i = 1 /\ group = [Polygon V1; Polygon V2])).
Proof.
intros H1 H2 Hp1 Hp2 res. split; [|split; [reflexivity|]].
2:{ intros i group.
    change (cumulative_groups res) with
      [(0, [Polygon V1]); (0, [Polygon V1]); (1, [Polygon V1; Polygon V2])].
    split.
    - intros [E|[E|[E|[]]]]; injection E as <- <-; auto.
    - intros [[-> ->]|[-> ->]]; cbn; auto. }
unfold read_occupancy_csv.
change [Some 0%float :: xs1; Some 1%float :: ys1;
        Some 1%float :: xs2; Some 2%float :: ys2]
  with ([Some 0%float :: xs1; Some 1%float :: ys1] ++
        [Some 1%float :: xs2; Some 2%float :: ys2]).
rewrite (for_rows_app (T:=float)).
rewrite (pair_run (T:=float)) by reflexivity. rewrite H1. cbn [bind].
repeat match goal with |- context [assert ?c ?e] =>
  let v := eval vm_compute in (assert c e) in change (assert c e) with v end.
cbn [bind]. rewrite Hp1. cbn [bind].
match goal with |- bind (bind ?m _) _ = _ =>
  let v := eval vm_compute in m in change m with v end.
cbn [bind].
rewrite (pair_run (T:=float)) by reflexivity. rewrite H2. cbn [bind].
repeat match goal with |- context [assert ?c ?e] =>
  let v := eval vm_compute in (assert c e) in change (assert c e) with v end.
cbn [bind]. rewrite Hp2.
vm_compute. reflexivity.
Qed.

Lemma scenario_A_occupancies_witness :
let res :=
  mkResult
    (mkSetBasedPrediction 0 [mkOccupancy 0 P1; mkOccupancy 1 P2])
    (mkSetBasedPrediction 0
       [mkOccupancy 0 (ShapeGroup 0%nat); mkOccupancy 0 (ShapeGroup 0%nat);
        mkOccupancy 1 (ShapeGroup 1%nat)])
    [[P1]; [P1; P2]; [P2]] in
read_occupancy_csv scenario_A 1%float = inr res
/\ cumulative_groups res = [(0, [P1]); (0, [P1]); (1, [P1; P2])]
/\ (forall i group, In (i, group) (cumulative_groups res) <->
      (i = 0 /\ group = [P1]) \/ (i = 1 /\ group = [P1; P2])).
Proof.
exact (scenario_A_occupancies
         (map Some P1_x) (map Some P1_y) (map Some P2_x) (map Some P2_y)
         (zip P1_x P1_y) (zip P2_x P2_y) eq_refl eq_refl eq_refl eq_refl).
Defined.

(** The initial occupancy of scenario A is emitted with an empty group; the
    close-out that follows appends P1 to the same list object. *)
Lemma scenario_A_initial_group :
exists st,
  initial_occupancy 1%float
    (at_interval 0%float 1%float (map Some P1_x) initial_locals) = inr st /\
  occupancies_cumulative st = [mkOccupancy 0 (ShapeGroup 0%nat)] /\
  group_shapes (heap st) (ShapeGroup 0%nat) = [].
Proof. eexists. split; [vm_compute; reflexivity|]. split; reflexivity. Qed.



(** C3, as stated, fails on scenario A with a fifth row: nothing is raised,
    and the result is that of scenario A. *)
Lemma five_rows_accepted :
Nat.odd (length five_rows) = true /\
read_occupancy_csv five_rows 1%float =
  inr (mkResult
         (mkSetBasedPrediction 0 [mkOccupancy 0 P1; mkOccupancy 1 P2])
         (mkSetBasedPrediction 0
            [mkOccupancy 0 (ShapeGroup 0%nat); mkOccupancy 0 (ShapeGroup 0%nat);
             mkOccupancy 1 (ShapeGroup 1%nat)])
         [[P1]; [P1; P2]; [P2]]).
Proof. split; [reflexivity|vm_compute; reflexivity]. Qed.

Lemma odd_trailing_row_ignored_witness :
Nat.even (length tenths) = true /\
read_occupancy_csv (tenths ++ [[Some 0.7%float; None]]) 0.1%float =
read_occupancy_csv tenths 0.1%float.
Proof.
split; [reflexivity|].
apply (odd_trailing_row_ignored (T:=float)). reflexivity.
Defined.

(** C4, as stated, fails on a source whose first interval ends 2^-20 before
    it starts: the rounded duration is -0.0, both assertions pass, the
    interval closes out grid point 0 and the next interval is processed. *)
Lemma backwards_interval_accepted :
num_lt 0%float 0x1p-20%float = true /\
read_occupancy_csv backwards_then 1%float =
  inr (mkResult
         (mkSetBasedPrediction 0 [mkOccupancy 0 P2])
         (mkSetBasedPrediction 0
            [mkOccupancy 0 (ShapeGroup 0%nat); mkOccupancy 0 (ShapeGroup 1%nat);
             mkOccupancy 0 (ShapeGroup 1%nat)])
         [[P1]; [P2]; [P2]]).
Proof. split; vm_compute; reflexivity. Qed.

Lemma negative_duration_raises_witness :
num_ge (around5 (num_sub 0%float 1%float)) (of_int 0) = false /\
raises (read_occupancy_csv (interval_rows 1%float 0%float P1_x P1_y) 1%float).
Proof.
split; [vm_compute; reflexivity|].
apply (negative_duration_raises (T:=float) 1%float [] [] 1%float 0%float
         (map Some P1_x) (map Some P1_y)).
- reflexivity.
- vm_compute. reflexivity.
Defined.

Lemma step_size_validation_witness :
num_lt 1%float (around5 (num_sub 2%float 0%float)) = true /\
read_occupancy_csv (interval_rows 0%float 2%float P1_x P1_y) 1%float =
  inl AssertionError_step_size.
Proof.
split; [vm_compute; reflexivity|].
apply (step_size_validation (T:=float) 1%float [] []
         (Some 0%float :: map Some P1_x) (Some 2%float :: map Some P1_y)
         0%float 2%float (zip P1_x P1_y) initial_locals).
- reflexivity.
- reflexivity.
- exists (map Some P1_x), (map Some P1_y). auto.
- vm_compute. reflexivity.
Defined.

Lemma chronological_order_error_witness :
valid 1%float 1%float 2%float = true /\
num_lt (of_int 0) 1%float = true /\ num_lt (of_int 0) 2%float = true /\
read_occupancy_csv (interval_rows 1%float 2%float P1_x P1_y) 1%float =
  inl Exception_chronological.
Proof.
split; [vm_compute; reflexivity|].
split; [vm_compute; reflexivity|].
split; [vm_compute; reflexivity|].
apply (chronological_order_error (T:=float) 1%float [] []
         (Some 1%float :: map Some P1_x) (Some 2%float :: map Some P1_y)
         1%float 2%float (zip P1_x P1_y) initial_locals).
- reflexivity.
- reflexivity.
- exists (map Some P1_x), (map Some P1_y). auto.
- vm_compute. reflexivity.
- vm_compute. reflexivity.
- vm_compute. reflexivity.
- vm_compute. reflexivity.
Defined.

Lemma coinciding_index_in_cumulative_witness :
exists res,
  read_occupancy_csv scenario_A 1%float = inr res /\
  In 1 (time_indices (occupancy_coinciding_prediction res)) /\
  In 1 (time_indices (occupancy_cumulative_prediction res)).
Proof.
eexists. split; [vm_compute; reflexivity|].
split; [right; left; reflexivity|].
eapply (proj1 (coinciding_index_in_cumulative (T:=float) 1%float scenario_A)).
- vm_compute. reflexivity.
- right. left. reflexivity.
Defined.

(** C10 fails on the binary64 grid of step 0.1: the grid time after six
    steps is 0.6, the quotient 0.6/0.1 is 5.999999999999999, and [int] gives
    5 a second time. *)
Theorem tenths_index_repeats :
coinciding_indices tenths 0.1%float = inr [0; 1; 2; 3; 4; 5; 5]
/\ num_div (0.5 + 0.1)%float 0.1%float = inr 0x1.7ffffffffffffp+2%float
/\ int 0x1.7ffffffffffffp+2%float = inr 5.
Proof. repeat split; vm_compute; reflexivity. Qed.



(** C8 fails on the binary64 grid of step 0.1.  After six intervals of length
    0.1 the grid time is 0.6, the time of the grid point of index 6.  The
    interval that starts and ends at 0.6 gets one coinciding occupancy, which
    holds its own polygon, and the grid time advances by one step; but the
    index is int(0.6/0.1) = int(5.999999999999999) = 5, the index of the
    coinciding occupancy before it, not 6. *)
Theorem point_interval_index_repeats :
exists st st',
  for_rows 0.1%float six_tenths initial_locals = inr st /\
  map time_step (occupancies_coinciding st) = [0; 1; 2; 3; 4; 5] /\
  scenario_time_step st = 0.6%float /\
  num_div 0.6%float 0.1%float = inr 0x1.7ffffffffffffp+2%float /\
  int 0x1.7ffffffffffffp+2%float = inr 5 /\
  for_rows 0.1%float six_tenths_then_point initial_locals = inr st' /\
  occupancies_coinciding st' = occupancies_coinciding st ++ [mkOccupancy 5 P2] /\
  scenario_time_step st' = (0.6 + 0.1)%float /\
  coinciding_indices six_tenths_then_point 0.1%float = inr [0; 1; 2; 3; 4; 5; 5].
Proof.
eexists _, _. split; [vm_compute; reflexivity|].
split; [reflexivity|]. split; [reflexivity|].
split; [vm_compute; reflexivity|]. split; [vm_compute; reflexivity|].
split; [vm_compute; reflexivity|].
split; [reflexivity|]. split; vm_compute; reflexivity.
Qed.

Lemma straddling_interval_witness :
exists st' initial,
  for_rows 1%float (interval_rows 0%float 1%float P1_x P1_y) initial_locals
    = inr st' /\
  occupancies_cumulative st' =
    [] ++ initial ++ [mkOccupancy 0 (ShapeGroup 0%nat)] /\
  (initial = [] \/ initial = [mkOccupancy 0 (ShapeGroup 0%nat)]) /\
  heap st' !! 0%nat = Some ([] ++ [P1]) /\
  shape_list st' = 1%nat /\
  heap st' !! shape_list st' = Some [P1] /\
  occupancies_coinciding st' = [] ++ [mkOccupancy 0 P1] /\
  scenario_time_step st' = num_add (of_int 0) 1%float.
Proof.
apply (straddling_interval (T:=float) 1%float []
         (Some 0%float :: map Some P1_x) (Some 1%float :: map Some P1_y)
         0%float 1%float (zip P1_x P1_y) initial_locals 0 []).
- reflexivity.
- reflexivity.
- exists (map Some P1_x), (map Some P1_y). auto.
- vm_compute. reflexivity.
- vm_compute. reflexivity.
- vm_compute. reflexivity.
- vm_compute. reflexivity.
- vm_compute. reflexivity.
- reflexivity.
Defined.

End Runs.

(** ** Rows that cannot be read *)

Section Malformed.
Context {T : Type} `{Num T}.

Implicit Types (st : locals T) (r : row T) (step_size : T).

Lemma for_rows_flag_pm step_size (rows : list (row T)) st st' :
for_rows step_size rows st = inr st' ->
flag st = 1 \/ flag st = -1 -> flag st' = 1 \/ flag st' = -1.
Proof.
intros Hb Hf. apply for_rows_flag in Hb.
destruct (Nat.even (length rows)); lia.
Qed.

Lemma loop_body_unreadable step_size r st e :
flag st = 1 \/ flag st = -1 ->
float_row0 r = inl e -> loop_body step_size r st = inl e.
Proof.
intros [Hf|Hf] Hr.
- rewrite loop_body_first by exact Hf. unfold first_row. rewrite Hr. reflexivity.
- rewrite loop_body_second by exact Hf. unfold second_row, read_interval.
  rewrite Hr. reflexivity.
Qed.

Lemma float_row0_inl r e :
float_row0 r = inl e ->
(r = [] /\ e = IndexError) \/ (exists cs, r = None :: cs /\ e = ValueError).
Proof.
destruct r as [|[t|] cs]; cbn; intros Hr; try discriminate;
  injection Hr as <-; eauto.
Qed.

(** A row that is empty or whose first field is no number stops the
    function, at whatever position it stands, also as a trailing row without
    a partner: [float(row[0])] runs on every row.  When the rows before it
    are processed without an error the exception is that of the row: an
    IndexError for the empty row, a ValueError for the field. *)
Theorem unreadable_time_raises step_size (pre post : list (row T)) r e :
float_row0 r = inl e ->
((r = [] /\ e = IndexError) \/ (exists cs, r = None :: cs /\ e = ValueError)) /\
raises (read_occupancy_csv (pre ++ r :: post) step_size) /\
(forall st, for_rows step_size pre initial_locals = inr st ->
   read_occupancy_csv (pre ++ r :: post) step_size = inl e).
Proof.
intros Hr. split; [apply float_row0_inl, Hr|].
assert (Hst : forall st, for_rows step_size pre initial_locals = inr st ->
   read_occupancy_csv (pre ++ r :: post) step_size = inl e).
{ intros st Hp. apply read_occupancy_csv_inl. rewrite (run_split _ _ _ _ Hp).
  cbn [for_rows]. rewrite (loop_body_unreadable step_size r st e); [reflexivity| |exact Hr].
  eapply for_rows_flag_pm; [exact Hp|]. left. reflexivity. }
split; [|exact Hst].
destruct (for_rows step_size pre initial_locals) as [e'|st] eqn:Hp.
- exists e'. apply read_occupancy_csv_inl. rewrite for_rows_app, Hp. reflexivity.
- exists e. eapply Hst. reflexivity.
Qed.

Lemma floats_None (cs : list (cell T)) : floats cs = None <-> In None cs.
Proof.
induction cs as [|[x|] cs IH]; cbn.
- split; [discriminate|tauto].
- destruct (floats cs).
  + split; [discriminate|]. intros [Hd|Hi]; [discriminate|]. apply IH in Hi. discriminate.
  + split; [|reflexivity]. intros _. right. apply IH. reflexivity.
- split; auto.
Qed.

Lemma array_transpose_inl (xs ys : list (cell T)) :
length xs <> length ys \/ In None xs \/ In None ys <->
array_transpose xs ys = inl ValueError.
Proof.
unfold array_transpose. destruct (Nat.eqb_spec (length xs) (length ys)) as [He|Hn].
- destruct (floats xs) as [a|] eqn:Ha, (floats ys) as [b|] eqn:Hb.
  + split; [|discriminate]. intros [Hd|[Hi|Hi]]; [contradiction| |];
      apply floats_None in Hi; congruence.
  + split; [reflexivity|]. intros _. right. right. apply floats_None, Hb.
  + split; [reflexivity|]. intros _. right. left. apply floats_None, Ha.
  + split; [reflexivity|]. intros _. right. left. apply floats_None, Ha.
- split; [reflexivity|]. auto.
Qed.

(** Coordinates that are no numbers, or x and y coordinates of different
    number, stop the function with the ValueError of [np.array], before the
    two assertions on the duration are reached. *)
Theorem unreadable_coordinates_raise step_size (pre post : list (row T))
  (t0 t1 : T) (xs ys : list (cell T)) st :
Nat.even (length pre) = true ->
for_rows step_size pre initial_locals = inr st ->
length xs <> length ys \/ In None xs \/ In None ys ->
read_occupancy_csv (pre ++ (Some t0 :: xs) :: (Some t1 :: ys) :: post) step_size
  = inl ValueError.
Proof.
intros He Hp Hbad. apply read_occupancy_csv_inl.
rewrite (run_split _ _ _ _ Hp). rewrite pair_run by (eapply even_rows_flag; eassumption).
apply array_transpose_inl in Hbad. rewrite Hbad. reflexivity.
Qed.

End Malformed.

(** ** The shapes of the result *)

Section Store.
Context {T : Type} `{Num T}.

Implicit Types (st : locals T) (r : row T) (step_size : T)
  (h : list (list (Shape T))).

Lemma group_ok_append h (l : loc) (p : Shape T) (o : Occupancy T) :
is_polygon p = true -> group_ok h o -> group_ok (alter (fun ps => ps ++ [p]) l h) o.
Proof.
intros Hp (l' & ps & Hs & Hl & Hn & Ha).
destruct (decide (l = l')) as [->|Hne].
- exists l', (ps ++ [p]). rewrite list_lookup_alter_eq, Hl.
  repeat split; auto.
  + destruct ps; discriminate.
  + rewrite forallb_app, Ha. cbn. rewrite Hp. reflexivity.
- exists l', ps. rewrite list_lookup_alter_ne by exact Hne. auto.
Qed.

Lemma group_ok_new h (o : Occupancy T) : group_ok h o -> group_ok (h ++ [[]]) o.
Proof.
intros (l' & ps & Hs & Hl & Hn & Ha). exists l', ps.
rewrite lookup_app_l by (eapply lookup_lt_Some, Hl). auto.
Qed.

Lemma group_pending_append h (l : loc) (p : Shape T) (o : Occupancy T) :
(l < length h)%nat ->
Forall (fun ps => forallb is_polygon ps = true) h ->
is_polygon p = true -> group_pending h l o ->
group_ok (alter (fun ps => ps ++ [p]) l h) o.
Proof.
intros Hl Hall Hp [Hok|Hs]; [apply group_ok_append; assumption|].
destruct (lookup_lt_is_Some_2 h l Hl) as [ps Hps].
exists l, (ps ++ [p]). rewrite list_lookup_alter_eq, Hps.
repeat split; auto.
- destruct ps; discriminate.
- rewrite forallb_app. cbn. rewrite Hp.
  rewrite Forall_lookup in Hall. rewrite (Hall _ _ Hps). reflexivity.
Qed.

Lemma polygons_append h (l : loc) (p : Shape T) :
is_polygon p = true ->
Forall (fun ps => forallb is_polygon ps = true) h ->
Forall (fun ps => forallb is_polygon ps = true) (alter (fun ps => ps ++ [p]) l h).
Proof.
intros Hp Hall. apply Forall_alter; [exact Hall|].
intros ps _ Hps. rewrite forallb_app, Hps. cbn. rewrite Hp. reflexivity.
Qed.

Lemma polygons_new h :
Forall (fun ps => forallb is_polygon ps = true) h ->
Forall (fun ps => forallb is_polygon ps = true) (h ++ [[]]).
Proof. intros Hall. apply Forall_app. split; [exact Hall|]. repeat constructor. Qed.

Lemma store_inv_pending st : store_inv st -> store_pending st.
Proof.
intros [Hb Hp Hc Hg]. split; try assumption.
eapply Forall_impl; [exact Hg|]. intros o Ho. left. exact Ho.
Qed.

Lemma initial_occupancy_pending step_size st st' :
store_pending st -> initial_occupancy step_size st = inr st' -> store_pending st'.
Proof.
intros Hp [(_ & ->)|(_ & i & _ & ->)]%initial_occupancy_inr; [exact Hp|].
destruct Hp as [Hb Hp Hc Hg]. split; cbn; try assumption.
apply Forall_app. split; [exact Hg|]. constructor; [|constructor].
right. reflexivity.
Qed.

Lemma classify_store step_size (p : Shape T) st st' :
is_polygon p = true ->
store_pending st -> classify step_size p st = inr st' -> store_inv st'.
Proof.
intros Hpol [Hb Hp Hc Hg]
  [(_ & ->)|(i & _ & [(_ & ->)|(_ & ->)])]%classify_inr.
- split; cbn.
  + rewrite length_alter. exact Hb.
  + apply polygons_append; assumption.
  + exact Hc.
  + eapply Forall_impl; [exact Hg|]. intros o Ho.
    eapply group_pending_append; eassumption.
- assert (Hgr : Forall (group_ok (alter (fun l => l ++ [p]) (shape_list st) (heap st)))
                  (occupancies_cumulative st ++ [mkOccupancy i (ShapeGroup (shape_list st))])).
  { apply Forall_app. split.
    - eapply Forall_impl; [exact Hg|]. intros o Ho.
      eapply group_pending_append; eassumption.
    - constructor; [|constructor].
      eapply group_pending_append; try eassumption. right. reflexivity. }
  split; cbn.
  + rewrite length_app, length_alter. cbn. lia.
  + apply polygons_new, polygons_append; assumption.
  + exact Hc.
  + eapply Forall_impl; [exact Hgr|]. intros o. apply group_ok_new.
- assert (Hgr : Forall (group_ok (alter (fun l => l ++ [p]) (shape_list st) (heap st)))
                  (occupancies_cumulative st ++ [mkOccupancy i (ShapeGroup (shape_list st))])).
  { apply Forall_app. split.
    - eapply Forall_impl; [exact Hg|]. intros o Ho.
      eapply group_pending_append; eassumption.
    - constructor; [|constructor].
      eapply group_pending_append; try eassumption. right. reflexivity. }
  split; cbn.
  + rewrite ?length_alter, length_app, ?length_alter. cbn. lia.
  + apply polygons_append; [exact Hpol|]. apply polygons_new, polygons_append; assumption.
  + exact Hc.
  + eapply Forall_impl; [exact Hgr|]. intros o Ho.
    apply group_ok_append; [exact Hpol|]. apply group_ok_new, Ho.
Qed.

Lemma coincide_store step_size (p : Shape T) st st' :
is_polygon p = true ->
store_inv st -> coincide step_size p st = inr st' -> store_inv st'.
Proof.
intros Hpol Hinv [(_ & ->)|(_ & i & _ & ->)]%coincide_inr; [exact Hinv|].
destruct Hinv as [Hb Hp Hc Hg]. split; cbn; try assumption.
apply Forall_app. split; [exact Hc|]. constructor; [exact Hpol|constructor].
Qed.

Lemma second_row_store step_size r st st' :
store_inv st -> second_row step_size r st = inr st' -> store_inv st'.
Proof.
unfold second_row. intros Hinv Hb. inv_bind Hb. destruct a as [st1 p].
apply read_interval_inr in Ha as (t1 & v & _ & _ & _ & _ & -> & ->).
cbn [fst snd] in *.
eapply (coincide_store _ (Polygon v)); [reflexivity| |exact Hb].
eapply (classify_store _ (Polygon v)); [reflexivity| |exact Ha1].
eapply initial_occupancy_pending; [|exact Ha0].
apply store_inv_pending. destruct Hinv as [Hb' Hp Hc Hg]. split; assumption.
Qed.

Lemma loop_body_store step_size r st st' :
store_inv st -> loop_body step_size r st = inr st' -> store_inv st'.
Proof.
unfold loop_body. intros Hinv Hb. inv_bind Hb. injection Hb as <-.
assert (Ha' : store_inv a).
{ destruct (flag st =? 1).
  - unfold first_row in Ha. inv_bind Ha. injection Ha as <-.
    destruct Hinv as [Hb' Hp Hc Hg]. split; assumption.
  - destruct (flag st =? -1).
    + eapply second_row_store; eassumption.
    + injection Ha as <-. exact Hinv. }
destruct Ha' as [Hb' Hp Hc Hg]. split; assumption.
Qed.

Lemma for_rows_store step_size (rows : list (row T)) st st' :
store_inv st -> for_rows step_size rows st = inr st' -> store_inv st'.
Proof.
revert st. induction rows as [|r rows IH]; intros st Hinv Hb.
- injection Hb as <-. exact Hinv.
- cbn [for_rows] in Hb. inv_bind Hb.
  eapply IH; [|exact Hb]. eapply loop_body_store; eassumption.
Qed.

Lemma initial_locals_store : store_inv (initial_locals (T:=T)).
Proof. split; cbn; repeat constructor. Qed.

(** In the result every coinciding occupancy holds a polygon and every
    cumulative occupancy holds a group whose list object is in the returned
    store; read from that store, no group is empty and every group holds
    polygons only.  This includes the initial occupancy of lines 105-107,
    whose group is empty when it is emitted: the polygon of the same interval
    is appended to its list object before the interval is done. *)
Theorem returned_shapes step_size (csv : list (row T)) (res : result T) :
read_occupancy_csv csv step_size = inr res ->
Forall (fun o => exists vertices, shape o = Polygon vertices)
  (occupancy_set (occupancy_coinciding_prediction res)) /\
Forall (fun o => exists l, shape o = ShapeGroup l /\ (l < length (objects res))%nat)
  (occupancy_set (occupancy_cumulative_prediction res)) /\
Forall (fun g => snd g <> [] /\ forallb is_polygon (snd g) = true)
  (cumulative_groups res).
Proof.
unfold read_occupancy_csv. intros Hb. inv_bind Hb. injection Hb as <-.
apply for_rows_store in Ha; [|apply initial_locals_store].
destruct Ha as [Hb Hp Hc Hg]. unfold cumulative_groups. cbn.
split; [|split].
- eapply Forall_impl; [exact Hc|]. intros o Ho.
  cbn in Ho. destruct (shape o); [eauto|discriminate Ho].
- eapply Forall_impl; [exact Hg|]. intros o (l & ps & Hs & Hl & _).
  exists l. split; [exact Hs|]. eapply lookup_lt_Some, Hl.
- apply Forall_map. eapply Forall_impl; [exact Hg|].
  intros o (l & ps & Hs & Hl & Hn & Hall). cbn. rewrite Hs. cbn.
  rewrite Hl. cbn. auto.
Qed.

End Store.

(** ** How many occupancies *)

Section Counts.
Context {T : Type} `{NumLaws T}.

Implicit Types (st : locals T) (r : row T) (step_size : T).

(** One interval appends at most one coinciding occupancy and at most two
    cumulative ones, and no coinciding one without a cumulative one. *)
Lemma second_row_counts step_size r st st' :
second_row step_size r st = inr st' ->
exists a c : nat,
  length (occupancies_cumulative st') = (length (occupancies_cumulative st) + a)%nat /\
  length (occupancies_coinciding st') = (length (occupancies_coinciding st) + c)%nat /\
  (c <= a)%nat /\ (a <= 2)%nat /\ (c <= 1)%nat.
Proof.
unfold second_row. intros Hb. inv_bind Hb. destruct a as [st1 p].
apply read_interval_inr in Ha as (t1 & v & _ & _ & _ & _ & -> & ->).
cbn [fst snd] in *.
assert (H1 : exists k : nat, (k <= 1)%nat /\
  length (occupancies_cumulative a0) = (length (occupancies_cumulative st) + k)%nat /\
  length (occupancies_coinciding a0) = length (occupancies_coinciding st)).
{ apply initial_occupancy_inr in Ha0 as [(_ & ->)|(_ & i & _ & ->)]; cbn.
  - exists 0%nat. lia.
  - exists 1%nat. rewrite length_app. cbn. lia. }
destruct H1 as (k & Hk & Hcu1 & Hco1).
apply classify_inr in Ha1 as [(Hcl & ->)|(i & Hi & [(_ & ->)|(_ & ->)])];
  apply coincide_inr in Hb as [(Hc & ->)|(Hc & j & Hj & ->)]; cbn;
  rewrite ?length_app; cbn; rewrite ?Hcu1, ?Hco1.
- exists k, 0%nat. lia.
- apply class_before in Hcl. apply andb_true_iff in Hc as [Hc _].
  unfold num_ge in Hc. cbn in Hc. rewrite (lt_not_ge _ _ Hcl) in Hc.
  discriminate.
- exists (k + 1)%nat, 0%nat. lia.
- exists (k + 1)%nat, 1%nat. lia.
- exists (k + 1)%nat, 0%nat. lia.
- exists (k + 1)%nat, 1%nat. lia.
Qed.

Lemma loop_body_counts step_size r st st' :
flag st = 1 \/ flag st = -1 ->
loop_body step_size r st = inr st' ->
(flag st' = 1 \/ flag st' = -1) /\
exists a c : nat,
  length (occupancies_cumulative st') = (length (occupancies_cumulative st) + a)%nat /\
  length (occupancies_coinciding st') = (length (occupancies_coinciding st) + c)%nat /\
  (c <= a)%nat /\
  (a + pending_row st' <= 1 + pending_row st)%nat /\
  (2 * c + pending_row st' <= 1 + pending_row st)%nat.
Proof.
intros Hf Hb. split; [apply loop_body_flag in Hb; lia|]. unfold pending_row.
destruct Hf as [Hf|Hf].
- rewrite loop_body_first in Hb by exact Hf. inv_bind Hb. injection Hb as <-.
  unfold first_row in Ha. inv_bind Ha. injection Ha as <-. cbn. rewrite Hf. cbn.
  exists 0%nat, 0%nat. lia.
- rewrite loop_body_second in Hb by exact Hf. inv_bind Hb. injection Hb as <-.
  apply second_row_counts in Ha as (a' & c & H1 & H2 & H3 & H4 & H5).
  cbn. rewrite Hf. cbn. exists a', c. lia.
Qed.

Lemma for_rows_counts step_size (rows : list (row T)) st st' :
flag st = 1 \/ flag st = -1 ->
for_rows step_size rows st = inr st' ->
exists a c : nat,
  length (occupancies_cumulative st') = (length (occupancies_cumulative st) + a)%nat /\
  length (occupancies_coinciding st') = (length (occupancies_coinciding st) + c)%nat /\
  (c <= a)%nat /\
  (a + pending_row st' <= length rows + pending_row st)%nat /\
  (2 * c + pending_row st' <= length rows + pending_row st)%nat.
Proof.
revert st. induction rows as [|r rows IH]; intros st Hf Hb.
- injection Hb as <-. exists 0%nat, 0%nat. cbn. lia.
- cbn [for_rows] in Hb. inv_bind Hb.
  apply loop_body_counts in Ha as (Hf' & a1 & c1 & ?); [|exact Hf].
  apply IH in Hb as (a2 & c2 & ?); [|exact Hf'].
  exists (a1 + a2)%nat, (c1 + c2)%nat. cbn [length]. lia.
Qed.

(** The result never has more coinciding than cumulative occupancies, at
    most one coinciding occupancy for every two rows, and at most one
    cumulative occupancy for every row. *)
Theorem occupancy_counts step_size (csv : list (row T)) (res : result T) :
read_occupancy_csv csv step_size = inr res ->
let coinciding := occupancy_set (occupancy_coinciding_prediction res) in
let cumulative := occupancy_set (occupancy_cumulative_prediction res) in
(length coinciding <= length cumulative)%nat /\
(2 * length coinciding <= length csv)%nat /\
(length cumulative <= length csv)%nat.
Proof.
unfold read_occupancy_csv. intros Hb. inv_bind Hb. injection Hb as <-.
apply for_rows_counts in Ha as (a' & c & H1 & H2 & H3 & H4 & H5);
  [|left; reflexivity].
cbn in *. unfold pending_row in *. cbn in *.
destruct (flag a =? -1); lia.
Qed.

End Counts.

(** ** What later rows leave alone *)

Section Grows.
Context {T : Type} `{Num T}.

Implicit Types (st : locals T) (r : row T) (step_size : T).

Lemma grows_refl st : (shape_list st < length (heap st))%nat -> grows st st.
Proof.
intros Hb. split; [|split; [left; reflexivity|exact Hb]].
intros l ps Hl. exists []. rewrite app_nil_r. auto.
Qed.

Lemma grows_trans st1 st2 st3 : grows st1 st2 -> grows st2 st3 -> grows st1 st3.
Proof.
intros (H12 & Hs12 & Hb2) (H23 & Hs23 & Hb3). split; [|split; [|exact Hb3]].
- intros l ps Hl. destruct (H12 l ps Hl) as (m1 & Hl2 & Hm1).
  destruct (H23 l _ Hl2) as (m2 & Hl3 & Hm2).
  exists (m1 ++ m2). rewrite app_assoc. split; [exact Hl3|].
  intros Hne. rewrite (Hm1 Hne), Hm2; [reflexivity|].
  apply lookup_lt_Some in Hl. destruct Hs12 as [->|Hge]; [exact Hne|lia].
- assert (Hlen : (length (heap st1) <= length (heap st2))%nat).
  { destruct (le_lt_dec (length (heap st1)) (length (heap st2))) as [Hle|Hlt];
      [exact Hle|].
    destruct (lookup_lt_is_Some_2 (heap st1) (length (heap st2)) Hlt) as [ps Hps].
    destruct (H12 _ _ Hps) as (m & Hl2 & _). apply lookup_lt_Some in Hl2. lia. }
  destruct Hs23 as [->|Hge]; [|right; lia]. exact Hs12.
Qed.

Lemma grows_append (p : Shape T) st :
(shape_list st < length (heap st))%nat -> grows st (shape_list_append p st).
Proof.
intros Hb. split; [|split; [left; reflexivity|cbn; rewrite length_alter; exact Hb]].
intros l ps Hl. cbn. destruct (decide (shape_list st = l)) as [<-|Hne].
- exists [p]. rewrite list_lookup_alter_eq, Hl. split; [reflexivity|]. congruence.
- exists []. rewrite list_lookup_alter_ne by exact Hne. rewrite app_nil_r. auto.
Qed.

Lemma grows_new st :
(shape_list st < length (heap st))%nat -> grows st (shape_list_new st).
Proof.
intros Hb. split; [|split; [right; cbn; lia|cbn; rewrite length_app; cbn; lia]].
intros l ps Hl. cbn. exists []. rewrite app_nil_r.
rewrite lookup_app_l by (eapply lookup_lt_Some, Hl). auto.
Qed.

Lemma grows_same st st' :
heap st' = heap st -> shape_list st' = shape_list st ->
(shape_list st < length (heap st))%nat -> grows st st'.
Proof.
intros Hh Hs Hb. unfold grows. rewrite Hh, Hs.
split; [|split; [left; reflexivity|exact Hb]].
intros l ps Hl. exists []. rewrite app_nil_r. auto.
Qed.

Lemma grows_bound st st' : grows st st' -> (shape_list st' < length (heap st'))%nat.
Proof. intros (_ & _ & Hb). exact Hb. Qed.

Lemma initial_occupancy_grows step_size st st' :
(shape_list st < length (heap st))%nat ->
initial_occupancy step_size st = inr st' -> grows st st'.
Proof.
intros Hb [(_ & ->)|(_ & i & _ & ->)]%initial_occupancy_inr;
  apply grows_same; auto.
Qed.

Lemma classify_grows step_size (p : Shape T) st st' :
(shape_list st < length (heap st))%nat ->
classify step_size p st = inr st' -> grows st st'.
Proof.
intros Hb [(_ & ->)|(i & _ & [(_ & ->)|(_ & ->)])]%classify_inr.
- apply grows_append, Hb.
- eapply grows_trans; [apply grows_append, Hb|].
  eapply grows_trans; [|apply grows_new; cbn; rewrite length_alter; exact Hb].
  apply grows_same; cbn; rewrite ?length_alter; auto.
- eapply grows_trans; [apply grows_append, Hb|].
  eapply grows_trans;
    [|apply grows_append; cbn; rewrite length_app; cbn; lia].
  eapply grows_trans; [|apply grows_new; cbn; rewrite length_alter; exact Hb].
  apply grows_same; cbn; rewrite ?length_alter; auto.
Qed.

Lemma coincide_grows step_size (p : Shape T) st st' :
(shape_list st < length (heap st))%nat ->
coincide step_size p st = inr st' -> grows st st'.
Proof.
intros Hb [(_ & ->)|(_ & i & _ & ->)]%coincide_inr;
  apply grows_same; auto.
Qed.

Lemma second_row_grows step_size r st st' :
(shape_list st < length (heap st))%nat ->
second_row step_size r st = inr st' -> grows st st'.
Proof.
unfold second_row. intros Hbd Hb. inv_bind Hb. destruct a as [st1 p].
apply read_interval_inr in Ha as (t1 & v & _ & _ & _ & _ & -> & ->).
cbn [fst snd] in *.
apply initial_occupancy_grows in Ha0; [|exact Hbd].
apply classify_grows in Ha1; [|eapply grows_bound, Ha0].
apply coincide_grows in Hb; [|eapply grows_bound, Ha1].
eapply grows_trans; [|exact Hb]. eapply grows_trans; [|exact Ha1].
eapply grows_trans; [|exact Ha0]. apply grows_same; auto.
Qed.

Lemma loop_body_grows step_size r st st' :
(shape_list st < length (heap st))%nat ->
loop_body step_size r st = inr st' -> grows st st'.
Proof.
unfold loop_body. intros Hbd Hb. inv_bind Hb. injection Hb as <-.
assert (Ha' : grows st a).
{ destruct (flag st =? 1).
  - unfold first_row in Ha. inv_bind Ha. injection Ha as <-.
    apply grows_same; auto.
  - destruct (flag st =? -1).
    + eapply second_row_grows; eassumption.
    + injection Ha as <-. apply grows_refl, Hbd. }
eapply grows_trans; [exact Ha'|]. apply grows_same; auto.
eapply grows_bound, Ha'.
Qed.

Lemma for_rows_grows step_size (rows : list (row T)) st st' :
(shape_list st < length (heap st))%nat ->
for_rows step_size rows st = inr st' -> grows st st'.
Proof.
revert st. induction rows as [|r rows IH]; intros st Hbd Hb.
- injection Hb as <-. apply grows_refl, Hbd.
- cbn [for_rows] in Hb. inv_bind Hb.
  apply loop_body_grows in Ha; [|exact Hbd].
  eapply grows_trans; [exact Ha|]. apply IH; [eapply grows_bound, Ha|exact Hb].
Qed.

Lemma appended_refl st : appended st st.
Proof. split; reflexivity. Qed.

Lemma appended_trans st1 st2 st3 :
appended st1 st2 -> appended st2 st3 -> appended st1 st3.
Proof. intros [H1 H2] [H3 H4]. split; etrans; eassumption. Qed.

Lemma second_row_appended step_size r st st' :
second_row step_size r st = inr st' -> appended st st'.
Proof.
unfold second_row. intros Hb. inv_bind Hb. destruct a as [st1 p].
apply read_interval_inr in Ha as (t1 & v & _ & _ & _ & _ & -> & ->).
cbn [fst snd] in *.
assert (H1 : appended st a0).
{ apply initial_occupancy_inr in Ha0 as [(_ & ->)|(_ & i & _ & ->)];
    split; cbn; try reflexivity. apply prefix_app_r. reflexivity. }
assert (H2 : appended a0 a1).
{ apply classify_inr in Ha1 as [(_ & ->)|(i & _ & [(_ & ->)|(_ & ->)])];
    split; cbn; try reflexivity; apply prefix_app_r; reflexivity. }
assert (H3 : appended a1 st').
{ apply coincide_inr in Hb as [(_ & ->)|(_ & i & _ & ->)];
    split; cbn; try reflexivity. apply prefix_app_r. reflexivity. }
eapply appended_trans; [exact H1|]. eapply appended_trans; eassumption.
Qed.

Lemma loop_body_appended step_size r st st' :
loop_body step_size r st = inr st' -> appended st st'.
Proof.
unfold loop_body. intros Hb. inv_bind Hb. injection Hb as <-.
change (appended st a).
destruct (flag st =? 1).
- unfold first_row in Ha. inv_bind Ha. injection Ha as <-. split; reflexivity.
- destruct (flag st =? -1).
  + eapply second_row_appended, Ha.
  + injection Ha as <-. apply appended_refl.
Qed.

Lemma for_rows_appended step_size (rows : list (row T)) st st' :
for_rows step_size rows st = inr st' -> appended st st'.
Proof.
revert st. induction rows as [|r rows IH]; intros st Hb.
- injection Hb as <-. apply appended_refl.
- cbn [for_rows] in Hb. inv_bind Hb.
  eapply appended_trans; [eapply loop_body_appended, Ha|]. apply IH, Hb.
Qed.

(** Rows never undo what earlier rows built.  Between the locals after a
    prefix of the rows and the locals after more rows, the two occupancy
    lists are only appended to, no list object of the store loses or changes
    a shape, the only list object that gains shapes is the one [shape_list]
    named after the prefix, and [shape_list] is never bound again to a list
    object that existed before. *)
Theorem rows_only_append step_size (pre post : list (row T)) st st'
  (l : loc) (ps : list (Shape T)) :
for_rows step_size pre initial_locals = inr st ->
for_rows step_size (pre ++ post) initial_locals = inr st' ->
heap st !! l = Some ps ->
occupancies_cumulative st `prefix_of` occupancies_cumulative st' /\
occupancies_coinciding st `prefix_of` occupancies_coinciding st' /\
(exists more, heap st' !! l = Some (ps ++ more) /\
   (l <> shape_list st -> more = [])) /\
(shape_list st' = shape_list st \/ (length (heap st) <= shape_list st')%nat).
Proof.
intros Hp Hr Hl. rewrite (run_split _ _ _ _ Hp) in Hr.
pose proof (for_rows_appended _ _ _ _ Hr) as [Hcu Hco].
apply for_rows_grows in Hp as (_ & _ & Hbd); [|cbn; lia].
apply for_rows_grows in Hr as (Hg & Hs & _); [|exact Hbd].
split; [exact Hcu|]. split; [exact Hco|].
split; [apply Hg, Hl|exact Hs].
Qed.

End Grows.

(** ** The interval before the grid time and the interval that reaches it *)

Section Classes.
Context {T : Type} `{NumLaws T}.

Implicit Types (st : locals T) (r : row T) (step_size : T).

(** An interval whose vertices [Polygon()] accepts and that ends before the
    grid time is only buffered: its polygon is appended to the list object of
    the buffer and nothing else changes; no coinciding occupancy is appended,
    the grid time stays, and the grid index is not computed, unless lines
    105-107 emit the initial occupancy first (the grid time and the start
    time are both 0). *)
Theorem early_interval_buffered step_size (pre : list (row T)) (r1 r2 : row T)
  (t0 t1 : T) (vertices : list (T * T)) (st : locals T) (i : Z)
  (buffer : list (Shape T)) :
Nat.even (length pre) = true ->
for_rows step_size pre initial_locals = inr st ->
interval r1 r2 t0 t1 vertices ->
valid step_size t0 t1 = true ->
new_Polygon vertices = inr (Polygon vertices) ->
let g := scenario_time_step st in
let at_start := num_eq g (of_int 0) && num_eq t0 (of_int 0) in
num_lt t1 g = true ->
(at_start = true -> grid_index step_size st = inr i) ->
heap st !! shape_list st = Some buffer ->
exists st',
  for_rows step_size (pre ++ [r1; r2]) initial_locals = inr st' /\
  occupancies_cumulative st' =
    occupancies_cumulative st ++
      (if at_start then [mkOccupancy i (ShapeGroup (shape_list st))] else []) /\
  occupancies_coinciding st' = occupancies_coinciding st /\
  scenario_time_step st' = g /\
  shape_list st' = shape_list st /\
  heap st' = <[shape_list st := buffer ++ [Polygon vertices]]> (heap st).
Proof.
intros He Hr (xs & ys & -> & -> & Hv) [Hv1 Hv2]%andb_true_iff Hp g at_start H1g Hi Hbuf.
pose proof (even_rows_flag _ _ _ He Hr) as Hf.
rewrite (run_split _ _ _ _ Hr). rewrite (pair_run (T:=T)) by exact Hf.
rewrite Hv, Hv1, Hv2. cbn [bind assert ret]. rewrite Hp. cbn [bind].
assert (H1 : exists st1,
  initial_occupancy step_size (at_interval t0 t1 xs st) = inr st1
  /\ scenario_time_step st1 = g /\ time_buf st1 = (t0, t1)
  /\ occupancies_coinciding st1 = occupancies_coinciding st
  /\ heap st1 = heap st /\ shape_list st1 = shape_list st
  /\ occupancies_cumulative st1 = occupancies_cumulative st ++
       (if at_start then [mkOccupancy i (ShapeGroup (shape_list st))] else [])).
{ unfold initial_occupancy, emit_cumulative.
  change (num_eq (scenario_time_step (at_interval t0 t1 xs st)) (of_int 0)
          && num_eq (fst (time_buf (at_interval t0 t1 xs st))) (of_int 0))
    with at_start.
  destruct at_start.
  - change (grid_index step_size (at_interval t0 t1 xs st))
      with (grid_index step_size st). rewrite Hi by reflexivity. cbn [bind ret].
    eexists. repeat split; eauto.
  - exists (at_interval t0 t1 xs st). cbn. rewrite app_nil_r. auto 10. }
destruct H1 as (st1 & -> & Hg1 & Hb1 & Hc1 & Hh1 & Hl1 & Hcu1).
cbn [bind].
unfold classify. rewrite Hb1, Hg1. cbn [fst snd]. rewrite H1g. cbn [bind ret].
unfold coincide.
cbn [scenario_time_step time_buf shape_list_append].
rewrite Hb1, Hg1. cbn [fst snd]. unfold num_ge.
rewrite (lt_not_ge _ _ H1g). cbn [andb bind ret for_rows].
eexists. split; [reflexivity|].
cbn [occupancies_cumulative occupancies_coinciding scenario_time_step heap
     shape_list set_flag shape_list_append].
rewrite Hh1, Hl1. repeat split; try assumption.
apply list_eq. intros l. destruct (decide (l = shape_list st)) as [->|Hne].
- rewrite list_lookup_alter_eq, Hbuf. cbn.
  rewrite list_lookup_insert_eq; [reflexivity|]. eapply lookup_lt_Some, Hbuf.
- rewrite list_lookup_alter_ne, list_lookup_insert_ne by congruence. reflexivity.
Qed.

(** An interval whose vertices [Polygon()] accepts and that ends at the grid
    time closes out the grid point: its polygon is appended to the list object of the buffer, a cumulative
    occupancy over that list object is appended at the grid index, and
    [shape_list] is bound to a new, empty list object.  The coinciding
    occupancy is appended, and the grid time advanced, exactly when the
    interval starts at or before the grid time. *)
Theorem reaching_interval step_size (pre : list (row T)) (r1 r2 : row T)
  (t0 t1 : T) (vertices : list (T * T)) (st : locals T) (i : Z)
  (buffer : list (Shape T)) :
Nat.even (length pre) = true ->
for_rows step_size pre initial_locals = inr st ->
interval r1 r2 t0 t1 vertices ->
valid step_size t0 t1 = true ->
new_Polygon vertices = inr (Polygon vertices) ->
let g := scenario_time_step st in
num_eq t1 g = true ->
grid_index step_size st = inr i ->
heap st !! shape_list st = Some buffer ->
exists st' initial,
  for_rows step_size (pre ++ [r1; r2]) initial_locals = inr st' /\
  occupancies_cumulative st' =
    occupancies_cumulative st ++ initial ++
      [mkOccupancy i (ShapeGroup (shape_list st))] /\
  (initial = [] \/ initial = [mkOccupancy i (ShapeGroup (shape_list st))]) /\
  heap st' = <[shape_list st := buffer ++ [Polygon vertices]]> (heap st) ++ [[]] /\
  shape_list st' = length (heap st) /\
  occupancies_coinciding st' =
    occupancies_coinciding st ++
      (if num_le t0 g then [mkOccupancy i (Polygon vertices)] else []) /\
  scenario_time_step st' = (if num_le t0 g then num_add g step_size else g).
Proof.
intros He Hr (xs & ys & -> & -> & Hv) [Hv1 Hv2]%andb_true_iff Hp g H1g Hi Hbuf.
pose proof (even_rows_flag _ _ _ He Hr) as Hf.
rewrite (run_split _ _ _ _ Hr). rewrite (pair_run (T:=T)) by exact Hf.
rewrite Hv, Hv1, Hv2. cbn [bind assert ret]. rewrite Hp. cbn [bind].
assert (H1 : exists st1 initial,
  initial_occupancy step_size (at_interval t0 t1 xs st) = inr st1
  /\ scenario_time_step st1 = g /\ time_buf st1 = (t0, t1)
  /\ occupancies_coinciding st1 = occupancies_coinciding st
  /\ heap st1 = heap st /\ shape_list st1 = shape_list st
  /\ occupancies_cumulative st1 = occupancies_cumulative st ++ initial
  /\ (initial = [] \/ initial = [mkOccupancy i (ShapeGroup (shape_list st))])).
{ unfold initial_occupancy, emit_cumulative.
  destruct (_ && _).
  - change (grid_index step_size (at_interval t0 t1 xs st))
      with (grid_index step_size st). rewrite Hi. cbn [bind ret].
    eexists _, _. repeat split; eauto.
  - exists (at_interval t0 t1 xs st), []. cbn. rewrite app_nil_r. auto 10. }
destruct H1 as (st1 & initial & -> & Hg1 & Hb1 & Hc1 & Hh1 & Hl1 & Hcu1 & Hin).
cbn [bind].
assert (Hi1 : grid_index step_size st1 = inr i).
{ unfold grid_index in *. rewrite Hg1. exact Hi. }
unfold classify. rewrite Hb1, Hg1. cbn [fst snd].
rewrite (eq_not_lt _ _ H1g), H1g.
unfold emit_cumulative.
change (grid_index step_size (shape_list_append (Polygon vertices) st1))
  with (grid_index step_size st1).
rewrite Hi1. cbn [bind ret].
unfold coincide.
cbn [scenario_time_step time_buf shape_list_new set_occupancies_cumulative
     shape_list_append].
rewrite Hb1, Hg1. cbn [fst snd]. unfold num_ge.
rewrite (eq_ge _ _ H1g). cbn [andb].
assert (Hheap : alter (fun l => l ++ [Polygon vertices]) (shape_list st) (heap st)
  = <[shape_list st := buffer ++ [Polygon vertices]]> (heap st)).
{ apply list_eq. intros l. destruct (decide (l = shape_list st)) as [->|Hne].
  - rewrite list_lookup_alter_eq, Hbuf. cbn.
    rewrite list_lookup_insert_eq; [reflexivity|]. eapply lookup_lt_Some, Hbuf.
  - rewrite list_lookup_alter_ne, list_lookup_insert_ne by congruence. reflexivity. }
destruct (num_le t0 g).
- match goal with |- context [grid_index step_size ?s] =>
    change (grid_index step_size s) with (grid_index step_size st1) end.
  rewrite Hi1. cbn [bind ret for_rows].
  eexists _, initial. split; [reflexivity|].
  cbn [occupancies_cumulative occupancies_coinciding scenario_time_step heap
       shape_list set_flag set_scenario_time_step set_occupancies_coinciding
       shape_list_append shape_list_new set_occupancies_cumulative].
  rewrite Hcu1, Hc1, Hh1, Hl1, <- app_assoc, length_alter, Hheap.
  repeat split; try reflexivity. exact Hin.
- cbn [bind ret for_rows].
  eexists _, initial. split; [reflexivity|].
  cbn [occupancies_cumulative occupancies_coinciding scenario_time_step heap
       shape_list set_flag set_scenario_time_step set_occupancies_coinciding
       shape_list_append shape_list_new set_occupancies_cumulative].
  rewrite Hcu1, Hc1, Hh1, Hl1, <- app_assoc, length_alter, Hheap, app_nil_r.
  repeat split; try reflexivity; try assumption.
Qed.

End Classes.

(** ** Runs of the further properties *)

Module MoreRuns.
Import Sources Samples.
Local Set Warnings "-inexact-float".

Lemma unreadable_time_raises_witness :
float_row0 unreadable_row = inl ValueError /\
raises (read_occupancy_csv (scenario_A ++ unreadable_row :: unit_interval) 1%float) /\
read_occupancy_csv (scenario_A ++ unreadable_row :: unit_interval) 1%float
  = inl ValueError.
Proof.
split; [reflexivity|].
destruct (unreadable_time_raises (T:=float) 1%float scenario_A unit_interval
            unreadable_row ValueError eq_refl) as (_ & Hr & Hst).
split; [exact Hr|]. eapply Hst. vm_compute. reflexivity.
Defined.

Lemma unreadable_coordinates_raise_witness :
read_occupancy_csv ragged 1%float = inl ValueError.
Proof.
apply (unreadable_coordinates_raise (T:=float) 1%float [] [] 0%float 1%float
         [Some 0%float; Some 1%float] [Some 0%float] initial_locals).
- reflexivity.
- reflexivity.
- left. cbn. lia.
Defined.

Lemma returned_shapes_witness :
exists res,
  read_occupancy_csv scenario_A 1%float = inr res /\
  Forall (fun o => exists vertices, shape o = Polygon vertices)
    (occupancy_set (occupancy_coinciding_prediction res)) /\
  Forall (fun o => exists l, shape o = ShapeGroup l /\ (l < length (objects res))%nat)
    (occupancy_set (occupancy_cumulative_prediction res)) /\
  Forall (fun g => snd g <> [] /\ forallb is_polygon (snd g) = true)
    (cumulative_groups res).
Proof.
eexists. split; [vm_compute; reflexivity|].
apply (returned_shapes (T:=float) 1%float scenario_A).
vm_compute. reflexivity.
Defined.

Lemma occupancy_counts_witness :
exists res,
  read_occupancy_csv scenario_A 1%float = inr res /\
  (length (occupancy_set (occupancy_coinciding_prediction res))
   <= length (occupancy_set (occupancy_cumulative_prediction res)))%nat /\
  (2 * length (occupancy_set (occupancy_coinciding_prediction res))
   <= length scenario_A)%nat /\
  (length (occupancy_set (occupancy_cumulative_prediction res))
   <= length scenario_A)%nat.
Proof.
eexists. split; [vm_compute; reflexivity|].
apply (occupancy_counts (T:=float) 1%float scenario_A).
vm_compute. reflexivity.
Defined.

Lemma rows_only_append_witness :
exists st st',
  for_rows 1%float unit_interval initial_locals = inr st /\
  for_rows 1%float (unit_interval ++ quarter) initial_locals = inr st' /\
  heap st !! 0%nat = Some [P1] /\
  0%nat <> shape_list st /\
  occupancies_cumulative st `prefix_of` occupancies_cumulative st' /\
  occupancies_coinciding st `prefix_of` occupancies_coinciding st' /\
  (exists more, heap st' !! 0%nat = Some ([P1] ++ more) /\
     (0%nat <> shape_list st -> more = [])) /\
  (shape_list st' = shape_list st \/ (length (heap st) <= shape_list st')%nat).
Proof.
eexists _, _.
split; [vm_compute; reflexivity|]. split; [vm_compute; reflexivity|].
split; [reflexivity|]. split; [cbn; lia|].
apply (rows_only_append (T:=float) 1%float unit_interval quarter).
- vm_compute. reflexivity.
- vm_compute. reflexivity.
- reflexivity.
Defined.

Lemma early_interval_buffered_witness :
exists st st',
  for_rows 1%float unit_interval initial_locals = inr st /\
  for_rows 1%float (unit_interval ++ quarter) initial_locals = inr st' /\
  occupancies_cumulative st' = occupancies_cumulative st ++ [] /\
  occupancies_coinciding st' = occupancies_coinciding st /\
  scenario_time_step st' = scenario_time_step st /\
  shape_list st' = shape_list st /\
  heap st' = <[shape_list st := [P1] ++ [P2]]> (heap st).
Proof.
eexists. 
destruct (early_interval_buffered (T:=float) 1%float unit_interval
         (Some 0.25%float :: map Some P2_x) (Some 0.5%float :: map Some P2_y)
         0.25%float 0.5%float (zip P2_x P2_y)
         (mkLocals [mkOccupancy 0 (ShapeGroup 0%nat); mkOccupancy 0 (ShapeGroup 0%nat)]
            [mkOccupancy 0 P1] 1%nat 1%float 1 (0%float, 1%float) (map Some P1_x)
            [[P1]; [P1]])
         0 [P1]) as (st' & H1 & H2).
- reflexivity.
- vm_compute. reflexivity.
- exists (map Some P2_x), (map Some P2_y). auto.
- vm_compute. reflexivity.
- vm_compute. reflexivity.
- vm_compute. reflexivity.
- intros Hs. vm_compute in Hs. discriminate Hs.
- reflexivity.
- exists st'. split; [vm_compute; reflexivity|]. split; [exact H1|]. exact H2.
Defined.

Lemma reaching_interval_witness :
exists st' initial,
  for_rows 1%float point initial_locals = inr st' /\
  occupancies_cumulative st' =
    [] ++ initial ++ [mkOccupancy 0 (ShapeGroup 0%nat)] /\
  (initial = [] \/ initial = [mkOccupancy 0 (ShapeGroup 0%nat)]) /\
  heap st' = <[0%nat := [] ++ [P1]]> [[]] ++ [[]] /\
  shape_list st' = 1%nat /\
  occupancies_coinciding st' = [] ++ [mkOccupancy 0 P1] /\
  scenario_time_step st' = num_add (of_int 0) 1%float.
Proof.
destruct (reaching_interval (T:=float) 1%float []
         (Some 0%float :: map Some P1_x) (Some 0%float :: map Some P1_y)
         0%float 0%float (zip P1_x P1_y) initial_locals 0 [])
  as (st' & initial & Hrun & Hcu & Hin & Hh & Hsl & Hco & Hg).
- reflexivity.
- reflexivity.
- exists (map Some P1_x), (map Some P1_y). auto.
- vm_compute. reflexivity.
- vm_compute. reflexivity.
- vm_compute. reflexivity.
- vm_compute. reflexivity.
- reflexivity.
- exists st', initial. repeat split; assumption.
Defined.

End MoreRuns.
